(** * Blogicum: the publication-visibility rule and the three read views

    A shallow embedding of [blogicum/blog/models.py] and
    [blogicum/blog/views.py].

    - Timestamps ([DateTimeField], [now()]) are integers (microseconds since
      the epoch); primary keys and foreign keys are integers; a nullable
      foreign key is an [option].
    - A table is the list of its rows; a [QuerySet] is the description of a
      query (WHERE conjuncts, ORDER BY terms, LIMIT), evaluated against the
      store when it is consumed, as Django does.
    - Views run in a small monad [DB] that reads the clock and the settings,
      threads the store and may raise a Python exception.
    - Django and the database are not part of the sources.  Where their
      behaviour differs between releases or backends (the exception for a
      negative slice bound, an integer too large for a column), the model
      follows Django 3.2 on SQLite. *)

From stdpp Require Import gmap strings list sorting.
From Stdlib Require Import ZArith Lia Ascii.

Local Open Scope Z_scope.

(** ** Settings: [django.conf.settings], of which the code reads three names.
    The settings module is not part of the sources; its values are taken as
    a parameter. *)
Module Settings.
Record t := {
  POSTS_BY_PAGE : Z;
  MAX_FIELD_LENGTH : Z;
  REPRESENTATION_LENGTH : Z
}.
End Settings.

(** ** models.py: fields and Meta options *)

(** [models.BooleanField(default=...)] and [models.DateTimeField(auto_now_add=...)]:
    only the options that decide a value are kept ([verbose_name] and
    [help_text] are presentation). *)
Record BooleanField := { bool_default : option bool }.
Record DateTimeField := { auto_now_add : bool }.

(** What a model's constructor stores in a field for which the caller gave
    [kwarg] (or nothing): the given value, else the field's default. *)
Definition field_value {A} (default : option A) (kwarg : option A) : option A :=
  match kwarg with
  | Some v => Some v
  | None => default
  end.

(** The attributes an inner [class Meta] may set. An attribute that the
    class body does not assign is [None]. *)
Record MetaDecl := {
  abstract : option bool;
  ordering : option (list string);
  default_related_name : option string;
  verbose_name : option string;
  verbose_name_plural : option string
}.

(** [class Meta(Parent.Meta)]: Python attribute lookup falls back to the
    parent class for what the child does not assign.  Django resets
    [abstract] on the Meta of an abstract base, so that one attribute is
    never inherited. *)
Definition Meta_inherit (child parent : MetaDecl) : MetaDecl :=
  {| abstract := abstract child;
     ordering := from_option Some (ordering parent) (ordering child);
     default_related_name :=
       from_option Some (default_related_name parent) (default_related_name child);
     verbose_name := from_option Some (verbose_name parent) (verbose_name child);
     verbose_name_plural :=
       from_option Some (verbose_name_plural parent) (verbose_name_plural child) |}.

(** The ORDER BY terms of a model: its Meta's [ordering], none when unset. *)
Definition Meta_ordering (m : MetaDecl) : list string := default [] (ordering m).

Module BaseBlogMeta.
(** The two columns every blog model inherits. *)
Record t := { is_published : bool; created_at : Z }.

Definition is_published_field : BooleanField := {| bool_default := Some true |}.
Definition created_at_field : DateTimeField := {| auto_now_add := true |}.

Definition Meta : MetaDecl :=
  {| abstract := Some true;
     ordering := Some ["created_at"];
     default_related_name := None;
     verbose_name := None;
     verbose_name_plural := None |}.

(** The inherited columns of a new row created at time [t]: [auto_now_add]
    stamps [created_at] with the clock; [is_published] is the caller's
    value or the field default. *)
Definition init (t : Z) (is_published_kwarg : option bool) : option BaseBlogMeta.t :=
  flag ← field_value (bool_default is_published_field) is_published_kwarg;
  Some {| is_published := flag; created_at := t |}.
End BaseBlogMeta.

Module Category.
Record t := {
  id : Z;
  base : BaseBlogMeta.t;
  title : string;
  description : string;
  slug : string
}.
Definition is_published (c : t) : bool := BaseBlogMeta.is_published (base c).
Definition created_at (c : t) : Z := BaseBlogMeta.created_at (base c).

Definition Meta : MetaDecl :=
  Meta_inherit
    {| abstract := None; ordering := None; default_related_name := None;
       verbose_name := Some "категория";
       verbose_name_plural := Some "Категории" |}
    BaseBlogMeta.Meta.

(** [Category(title=..., description=..., slug=..., [is_published=...])]
    saved at time [now] under primary key [pk]. *)
Definition init (pk now : Z) (title description slug : string)
    (is_published_kwarg : option bool) : option t :=
  b ← BaseBlogMeta.init now is_published_kwarg;
  Some {| id := pk; base := b; title := title; description := description;
          slug := slug |}.
End Category.

Module Location.
Record t := {
  id : Z;
  base : BaseBlogMeta.t;
  name : string
}.
Definition is_published (l : t) : bool := BaseBlogMeta.is_published (base l).
Definition created_at (l : t) : Z := BaseBlogMeta.created_at (base l).

Definition Meta : MetaDecl :=
  Meta_inherit
    {| abstract := None; ordering := None; default_related_name := None;
       verbose_name := Some "местоположение";
       verbose_name_plural := Some "Местоположения" |}
    BaseBlogMeta.Meta.

Definition init (pk now : Z) (name : string)
    (is_published_kwarg : option bool) : option t :=
  b ← BaseBlogMeta.init now is_published_kwarg;
  Some {| id := pk; base := b; name := name |}.
End Location.

(** [User = get_user_model()]: owned by the authentication application. *)
Module User.
Record t := { id : Z }.
End User.

Module Post.
Record t := {
  id : Z;
  base : BaseBlogMeta.t;
  title : string;
  text : string;
  pub_date : Z;
  author : Z;               (* ForeignKey(User, on_delete=CASCADE) *)
  location : option Z;      (* ForeignKey(Location, SET_NULL, null=True) *)
  category : option Z       (* ForeignKey(Category, SET_NULL, null=True) *)
}.
Definition is_published (p : t) : bool := BaseBlogMeta.is_published (base p).
Definition created_at (p : t) : Z := BaseBlogMeta.created_at (base p).

Definition Meta : MetaDecl :=
  Meta_inherit
    {| abstract := None;
       ordering := Some ["-pub_date"];
       default_related_name := Some "posts";
       verbose_name := Some "публикация";
       verbose_name_plural := Some "Публикации" |}
    BaseBlogMeta.Meta.

Definition init (pk now : Z) (title text : string) (pub_date author : Z)
    (location category : option Z) (is_published_kwarg : option bool) : option t :=
  b ← BaseBlogMeta.init now is_published_kwarg;
  Some {| id := pk; base := b; title := title; text := text;
          pub_date := pub_date; author := author; location := location;
          category := category |}.
End Post.

(** ** The store: one table per model *)
Record Store := {
  users : list User.t;
  categories : list Category.t;
  locations : list Location.t;
  posts : list Post.t
}.

(** Following a foreign key: the row of the referenced table with that
    primary key. *)
Definition category_by_pk (s : Store) (k : Z) : option Category.t :=
  List.find (λ c, bool_decide (Category.id c = k)) (categories s).

(** [post.category]: [None] for a null reference. *)
Definition Post_category (s : Store) (p : Post.t) : option Category.t :=
  k ← Post.category p; category_by_pk s k.

(** ** The ORM: models, lookups, query sets *)

(** What the ORM needs to know of a model: its table, the keyword lookups
    its queries use with their meaning on a row, the columns an ORDER BY
    may name, and its Meta. *)
Class Model (R : Type) := {
  Lookup : Type;
  table : Store → list R;
  matches : Store → Lookup → R → Prop;
  matches_dec :: ∀ s l r, Decision (matches s l r);
  bound_integers : Lookup → list Z;
  sort_key : string → option (R → Z);
  _meta : MetaDecl
}.
#[global] Hint Mode Model ! : typeclass_instances.
Arguments Lookup R {_}.

(** The keyword arguments of the code's [filter] and [get] calls on [Post],
    named as the code writes them.  [pub_date__lt] is SQL's strict [<];
    a lookup through [category__] joins the category table, so a row whose
    reference is null (or dangling) satisfies none of them.  Only [id=...]
    hands an integer to the database; a flag, a date and a slug are bound as
    other types. *)
Inductive PostLookup :=
| id_exact (k : Z)
| is_published_exact (b : bool)
| pub_date__lt (t : Z)
| category__is_published (b : bool)
| category__slug (v : string).

Definition Post_matches (s : Store) (l : PostLookup) (p : Post.t) : Prop :=
  match l with
  | id_exact k => Post.id p = k
  | is_published_exact b => Post.is_published p = b
  | pub_date__lt t => Post.pub_date p < t
  | category__is_published b =>
      Category.is_published <$> Post_category s p = Some b
  | category__slug v => Category.slug <$> Post_category s p = Some v
  end.

Inductive CategoryLookup :=
| slug_exact (v : string)
| category_is_published_exact (b : bool).

Definition Category_matches (l : CategoryLookup) (c : Category.t) : Prop :=
  match l with
  | slug_exact v => Category.slug c = v
  | category_is_published_exact b => Category.is_published c = b
  end.

(** No query of the code filters locations. *)
Definition Location_matches (l : Empty_set) (_ : Location.t) : Prop :=
  match l with end.

#[export] Instance Post_matches_dec s l p : Decision (Post_matches s l p).
Proof. destruct l; simpl; apply _. Defined.

#[export] Instance Category_matches_dec l c : Decision (Category_matches l c).
Proof. destruct l; simpl; apply _. Defined.

#[export] Instance Location_matches_dec l c : Decision (Location_matches l c).
Proof. destruct l. Defined.

#[export] Instance Post_Model : Model Post.t := {|
  Lookup := PostLookup;
  table := posts;
  matches := Post_matches;
  bound_integers l := match l with id_exact k => [k] | _ => [] end;
  sort_key f :=
    if decide (f = "pub_date") then Some Post.pub_date
    else if decide (f = "created_at") then Some Post.created_at
    else None;
  _meta := Post.Meta
|}.

#[export] Instance Category_Model : Model Category.t := {|
  Lookup := CategoryLookup;
  table := categories;
  matches _ := Category_matches;
  bound_integers _ := [];
  sort_key f :=
    if decide (f = "created_at") then Some Category.created_at else None;
  _meta := Category.Meta
|}.

#[export] Instance Location_Model : Model Location.t := {|
  Lookup := Empty_set;
  table := locations;
  matches _ := Location_matches;
  bound_integers _ := [];
  sort_key f :=
    if decide (f = "created_at") then Some Location.created_at else None;
  _meta := Location.Meta
|}.

Section Ordering.
Context {R : Type} `{Model R}.

(** One ORDER BY term: a column name, descending when prefixed by a hyphen.
    (A name that is not a column is refused by Django's system checks; the
    term then orders nothing.) *)
Definition order_term_compare (term : string) (a b : R) : comparison :=
  match term with
  | String "-"%char f =>
      match sort_key f with
      | Some k => k b ?= k a
      | None => Eq
      end
  | f =>
      match sort_key f with
      | Some k => k a ?= k b
      | None => Eq
      end
  end.

(** Several terms order lexicographically. *)
Fixpoint ordering_compare (terms : list string) (a b : R) : comparison :=
  match terms with
  | [] => Eq
  | t :: ts =>
      match order_term_compare t a b with
      | Eq => ordering_compare ts a b
      | c => c
      end
  end.

(** [a] may stand before [b] in a result ordered by [terms]. *)
Definition ordering_le (terms : list string) (a b : R) : Prop :=
  ordering_compare terms a b ≠ Gt.

#[export] Instance ordering_le_dec terms a b : Decision (ordering_le terms a b).
Proof. unfold ordering_le. destruct (ordering_compare terms a b); [left|left|right]; congruence. Defined.
End Ordering.

(** ** The monad of a request: clock and settings, the store, exceptions *)

Inductive Exn :=
| Http404
| DoesNotExist
| MultipleObjectsReturned
| AssertionError
| OverflowError.

#[export] Instance Exn_eq_dec : EqDecision Exn.
Proof. solve_decision. Defined.

(** What a request reads from its surroundings: the wall clock behind
    [django.utils.timezone.now] and the settings. *)
Record Env := { clock : Z; settings : Settings.t }.

(** A computation returns the store it leaves behind and either the exception
    it raised or its value. *)
Definition DB (A : Type) : Type := Env → Store → Store * (Exn + A).

#[export] Instance DB_ret : MRet DB := λ A a _ s, (s, inr a).

#[export] Instance DB_bind : MBind DB := λ A B f m e s,
  match m e s with
  | (s', inr a) => f a e s'
  | (s', inl x) => (s', inl x)
  end.

Definition raise {A} (x : Exn) : DB A := λ _ s, (s, inl x).

(** [try: m  except x: handler]; any other exception passes through. *)
Definition try_except {A} (m : DB A) (x : Exn) (handler : DB A) : DB A := λ e s,
  match m e s with
  | (s', inl y) => if decide (y = x) then handler e s' else (s', inl y)
  | r => r
  end.

(** [django.utils.timezone.now()] *)
Definition now : DB Z := λ e s, (s, inr (clock e)).

(** [settings.NAME] *)
Definition setting {A} (name : Settings.t → A) : DB A := λ e s, (s, inr (name (settings e))).

(** An integer the database driver can bind: SQLite's INTEGER is a signed
    64-bit number. *)
Definition int64 (z : Z) : Prop := - 2 ^ 63 ≤ z < 2 ^ 63.

#[export] Instance int64_dec z : Decision (int64 z).
Proof. unfold int64. apply _. Defined.

Module QuerySet.
(** A query that has not run yet. *)
Record t (R : Type) `{Model R} := {
  where_ : list (Lookup R);
  select_related_ : list string;
  order_by_ : list string
}.
Arguments where_ {R _} _.
Arguments select_related_ {R _} _.
Arguments order_by_ {R _} _.

(** A query set after [qs[:k]]: Django accepts no further [filter] on it,
    which the separate type enforces. *)
Record sliced (R : Type) `{Model R} := { query : t R; stop : nat }.
Arguments query {R _} _.
Arguments stop {R _} _.

Section Ops.
Context {R : Type} `{Model R}.

(** [models.Manager.get_queryset]: every row, in the Meta's order. *)
Definition Manager_get_queryset : t R :=
  {| where_ := []; select_related_ := []; order_by_ := Meta_ordering (_meta (R := R)) |}.

Definition all (q : t R) : t R := q.

(** [select_related] widens the SELECT with the rows the named references
    lead to, so that they come with each row.  It drops no row: a nullable
    reference is joined by LEFT OUTER JOIN, and a required one ([author])
    always resolves under the table's foreign-key constraint. *)
Definition select_related (names : list string) (q : t R) : t R :=
  {| where_ := where_ q;
     select_related_ := select_related_ q ++ names;
     order_by_ := order_by_ q |}.

(** [filter] with keyword lookups: they are ANDed to the WHERE clause. *)
Definition filter (kwargs : list (Lookup R)) (q : t R) : t R :=
  {| where_ := where_ q ++ kwargs;
     select_related_ := select_related_ q;
     order_by_ := order_by_ q |}.

(** The row satisfies every conjunct of the WHERE clause. *)
Definition selects (s : Store) (q : t R) (r : R) : Prop :=
  Forall (λ l, matches s l r) (where_ q).

(** Running the query: SELECT ... WHERE ... ORDER BY .... *)
Definition evaluate (s : Store) (q : t R) : list R :=
  merge_sort (ordering_le (order_by_ q))
    (base.filter (selects s q) (table s)).

(** ... LIMIT stop. *)
Definition evaluate_sliced (s : Store) (q : sliced R) : list R :=
  take (stop q) (evaluate s (query q)).

(** Every integer the WHERE clause hands over can be bound. *)
Definition binds (q : t R) : Prop :=
  Forall int64 (where_ q ≫= bound_integers).

(** Sending a query to the database: a SELECT.  The driver refuses an
    integer outside the 64-bit range with OverflowError before any row is
    read. *)
Definition fetch (q : t R) : DB (list R) := λ _ s,
  if decide (binds q) then (s, inr (evaluate s q)) else (s, inl OverflowError).

(** [qs[:k]]: a negative bound is refused (by an assertion in Django 3.2),
    otherwise the query gets a LIMIT and stays unevaluated. *)
Definition slice_stop (q : t R) (k : Z) : DB (sliced R) :=
  if decide (k < 0) then raise AssertionError
  else mret {| query := q; stop := Z.to_nat k |}.

(** [get] with keyword lookups: the single row of the filtered query. *)
Definition get (q : t R) (kwargs : list (Lookup R)) : DB R :=
  rows ← fetch (filter kwargs q);
  match rows with
  | [r] => mret r
  | [] => raise DoesNotExist
  | _ => raise MultipleObjectsReturned
  end.
End Ops.
End QuerySet.

(** [django.shortcuts.get_object_or_404] on a query set (a model class
    stands for its default manager's query set): [DoesNotExist] becomes
    [Http404], anything else passes through. *)
Definition get_object_or_404 {R} `{Model R} (queryset : QuerySet.t R)
    (kwargs : list (Lookup R)) : DB R :=
  try_except (QuerySet.get queryset kwargs) DoesNotExist (raise Http404).

(** ** models.py: the manager of published posts *)
Module PublishedPostsManager.
(** The query built at clock reading [t]. *)
Definition published_at (t : Z) : QuerySet.t Post.t :=
  QuerySet.filter (R := Post.t)
    [is_published_exact true; pub_date__lt t; category__is_published true]
    (QuerySet.select_related ["author"; "category"; "location"]
       QuerySet.Manager_get_queryset).

Definition get_queryset : DB (QuerySet.t Post.t) :=
  t ← now;
  mret (published_at t).

(** [Post.published.all()] and [Post.published.filter(...)]: a manager
    forwards both to a fresh [get_queryset()]. *)
Definition all : DB (QuerySet.t Post.t) :=
  q ← get_queryset; mret (QuerySet.all q).

Definition filter (kwargs : list PostLookup) : DB (QuerySet.t Post.t) :=
  q ← get_queryset; mret (QuerySet.filter (R := Post.t) kwargs q).
End PublishedPostsManager.

(** ** views.py *)

Inductive HttpRequest := Request (path : string).

(** What a view may put under a name of the template context. *)
Inductive ContextValue :=
| APost (p : Post.t)
| ACategory (c : Category.t)
| PostQuery (q : QuerySet.t Post.t)
| PostSlice (q : QuerySet.sliced Post.t).

(** The same once the template has consumed it: a query set has been run. *)
Inductive Rendered :=
| ShownPost (p : Post.t)
| ShownCategory (c : Category.t)
| ShownPosts (l : list Post.t).

Definition realise (s : Store) (v : ContextValue) : Rendered :=
  match v with
  | APost p => ShownPost p
  | ACategory c => ShownCategory c
  | PostQuery q => ShownPosts (QuerySet.evaluate s q)
  | PostSlice q => ShownPosts (QuerySet.evaluate_sliced s q)
  end.

(** The response, as far as the views decide it: the template named, the
    context handed over, and what each context entry showed when the
    template read it. *)
Record HttpResponse := {
  template_name : string;
  context : gmap string ContextValue;
  context_data : gmap string Rendered
}.

(** [django.shortcuts.render]: the renderer reads the context against the
    store as it is during the call.  (No query a view hands over binds an
    integer, so running it there cannot overflow.) *)
Definition render (request : HttpRequest) (template : string)
    (ctx : gmap string ContextValue) : DB HttpResponse := λ _ s,
  (s, inr {| template_name := template;
             context := ctx;
             context_data := realise s <$> ctx |}).

Definition index (request : HttpRequest) : DB HttpResponse :=
  published ← PublishedPostsManager.all;
  k ← setting Settings.POSTS_BY_PAGE;
  post ← QuerySet.slice_stop published k;
  let ctx : gmap string ContextValue := {[ "post_list" := PostSlice post ]} in
  render request "blog/index.html" ctx.

Definition post_detail (request : HttpRequest) (post_id : Z) : DB HttpResponse :=
  published ← PublishedPostsManager.all;
  post ← get_object_or_404 (R := Post.t) published [id_exact post_id];
  let ctx : gmap string ContextValue := {[ "post" := APost post ]} in
  render request "blog/detail.html" ctx.

Definition category_posts (request : HttpRequest) (category_slug : string)
    : DB HttpResponse :=
  category ← get_object_or_404 (R := Category.t)
                (QuerySet.all QuerySet.Manager_get_queryset)
                [slug_exact category_slug; category_is_published_exact true];
  post ← PublishedPostsManager.filter [category__slug category_slug];
  let ctx : gmap string ContextValue :=
    {[ "category" := ACategory category; "post_list" := PostQuery post ]} in
  render request "blog/category.html" ctx.

(** ** Names for what the statements below talk about *)

(** The integer an ORDER BY term sorts by: the column, negated for a
    descending term. *)
Definition order_term_key {R} `{Model R} (term : string) (r : R) : Z :=
  match term with
  | String "-"%char f =>
      match sort_key f with
      | Some k => - k r
      | None => 0
      end
  | f =>
      match sort_key f with
      | Some k => k r
      | None => 0
      end
  end.

(** The rows of [Post.published] when the clock reads [t]. *)
Definition visible_posts (s : Store) (t : Z) : list Post.t :=
  QuerySet.evaluate s (PublishedPostsManager.published_at t).

(** The post refers to a category, and that category is published. *)
Definition published_category (s : Store) (p : Post.t) : Prop :=
  ∃ k c, Post.category p = Some k ∧ category_by_pk s k = Some c
         ∧ Category.is_published c = true.

(** The specification's wording of the category condition: no category, or
    a published one. *)
Definition null_or_published_category (s : Store) (p : Post.t) : Prop :=
  Post.category p = None ∨ published_category s p.

(** Newest first, ties allowed / not allowed. *)
Definition pub_date_descending (l : list Post.t) : Prop :=
  StronglySorted (λ a b, Post.pub_date b ≤ Post.pub_date a) l.

Definition pub_date_strictly_descending (l : list Post.t) : Prop :=
  StronglySorted (λ a b, Post.pub_date b < Post.pub_date a) l.

(** A computation that leaves every store as it found it. *)
Definition read_only {A} (m : DB A) : Prop := ∀ e s, (m e s).1 = s.

(** Unique columns: primary keys, and [slug] ([unique=True]). *)
Definition unique_post_ids (s : Store) : Prop := NoDup (Post.id <$> posts s).
Definition unique_slugs (s : Store) : Prop := NoDup (Category.slug <$> categories s).

(** The id column holds signed 64-bit integers. *)
Definition post_ids_fit (s : Store) : Prop :=
  Forall (λ p, int64 (Post.id p)) (posts s).

(** An edit of one post's publication date, as the administration site
    makes it: the rows with that primary key get the new date, and nothing
    else in the store changes. *)
Definition with_pub_date (d : Z) (p : Post.t) : Post.t :=
  {| Post.id := Post.id p; Post.base := Post.base p; Post.title := Post.title p;
     Post.text := Post.text p; Post.pub_date := d; Post.author := Post.author p;
     Post.location := Post.location p; Post.category := Post.category p |}.

Definition set_pub_date (pk d : Z) (s : Store) : Store :=
  {| users := users s;
     categories := categories s;
     locations := locations s;
     posts := (λ p, if decide (Post.id p = pk) then with_pub_date d p else p)
                <$> posts s |}.

(** A small blog used to run the views on. *)
Module Sample.
Definition base (published : bool) (created : Z) : BaseBlogMeta.t :=
  {| BaseBlogMeta.is_published := published; BaseBlogMeta.created_at := created |}.

Definition news : Category.t :=
  {| Category.id := 1; Category.base := base true 1; Category.title := "News";
     Category.description := "What happened"; Category.slug := "news" |}.

Definition drafts : Category.t :=
  {| Category.id := 2; Category.base := base false 0; Category.title := "Drafts";
     Category.description := "Not yet"; Category.slug := "drafts" |}.

Definition post (pk pub_date : Z) (category : option Z) (published : bool) : Post.t :=
  {| Post.id := pk; Post.base := base published 0; Post.title := "A post";
     Post.text := "Text"; Post.pub_date := pub_date; Post.author := 1;
     Post.location := None; Post.category := category |}.

Definition store (ps : list Post.t) : Store :=
  {| users := [ {| User.id := 1 |} ];
     categories := [news; drafts];
     locations := [ {| Location.id := 1; Location.base := base true 0;
                       Location.name := "Here" |} ];
     posts := ps |}.

Definition env (t page : Z) : Env :=
  {| clock := t;
     settings := {| Settings.POSTS_BY_PAGE := page;
                    Settings.MAX_FIELD_LENGTH := 256;
                    Settings.REPRESENTATION_LENGTH := 20 |} |}.

Definition request : HttpRequest := Request "/".
End Sample.

(** ** models.py: the [__str__] methods *)

(** A Python string is a sequence of characters (code points); a [string]
    of this file holds its UTF-8 encoding, one to four bytes a character.
    A byte of the form 10xxxxxx continues the character begun before it. *)
Definition is_continuation (a : ascii) : bool :=
  match a with
  | Ascii _ _ _ _ _ _ b6 b7 => b7 && negb b6
  end.

(** The string goes on with a continuation byte. *)
Definition continues (s : string) : bool :=
  match s with
  | String b _ => is_continuation b
  | EmptyString => false
  end.

(** The characters of a string, each as its bytes. *)
Fixpoint characters (s : string) : list string :=
  match s with
  | EmptyString => []
  | String a rest =>
      match characters rest with
      | c :: cs =>
          if continues rest then String a c :: cs else String a "" :: c :: cs
      | [] => [String a ""]
      end
  end.

(** The string made of the given characters. *)
Definition join (cs : list string) : string := foldr String.append "" cs.

(** [s[:k]] on a Python string: the first [k] characters; a negative bound
    counts from the end, and a bound outside the string is clipped to it. *)
Definition str_slice_stop (s : string) (k : Z) : string :=
  let len := Z.of_nat (length (characters s)) in
  let stop := if decide (k < 0) then Z.max 0 (len + k) else Z.min k len in
  join (take (Z.to_nat stop) (characters s)).

Definition Category__str__ (self : Category.t) : DB string :=
  k ← setting Settings.REPRESENTATION_LENGTH;
  mret (str_slice_stop (Category.title self) k).

Definition Location__str__ (self : Location.t) : DB string :=
  k ← setting Settings.REPRESENTATION_LENGTH;
  mret (str_slice_stop (Location.name self) k).

Definition Post__str__ (self : Post.t) : DB string :=
  k ← setting Settings.REPRESENTATION_LENGTH;
  mret (str_slice_stop (Post.title self) k).

(** ** models.py: the foreign keys of [Post] and what deleting does *)

Inductive OnDelete := CASCADE | SET_NULL.

(** [models.ForeignKey(to, on_delete=..., null=...)] *)
Record ForeignKey := { to : string; on_delete : OnDelete; null : bool }.

Definition Post_author_field : ForeignKey :=
  {| to := "User"; on_delete := CASCADE; null := false |}.
Definition Post_location_field : ForeignKey :=
  {| to := "Location"; on_delete := SET_NULL; null := true |}.
Definition Post_category_field : ForeignKey :=
  {| to := "Category"; on_delete := SET_NULL; null := true |}.

Definition with_location_null (p : Post.t) : Post.t :=
  {| Post.id := Post.id p; Post.base := Post.base p; Post.title := Post.title p;
     Post.text := Post.text p; Post.pub_date := Post.pub_date p;
     Post.author := Post.author p; Post.location := None;
     Post.category := Post.category p |}.

Definition with_category_null (p : Post.t) : Post.t :=
  {| Post.id := Post.id p; Post.base := Post.base p; Post.title := Post.title p;
     Post.text := Post.text p; Post.pub_date := Post.pub_date p;
     Post.author := Post.author p; Post.location := Post.location p;
     Post.category := None |}.

(** What the deletion of the row [k] of a referenced table does to the posts
    through the reference [fk], read by [ref] and emptied by [set_null]:
    CASCADE deletes the posts that refer to the row, SET_NULL keeps them and
    empties their reference. *)
Definition collect_posts (fk : ForeignKey) (ref : Post.t → option Z)
    (set_null : Post.t → Post.t) (k : Z) (ps : list Post.t) : list Post.t :=
  match on_delete fk with
  | CASCADE => base.filter (λ p, ref p ≠ Some k) ps
  | SET_NULL => (λ p, if decide (ref p = Some k) then set_null p else p) <$> ps
  end.

(** [category.delete()], [location.delete()], [user.delete()] for the row
    with primary key [k]. *)
Definition Category_delete (k : Z) (s : Store) : Store :=
  {| users := users s;
     categories := base.filter (λ c, Category.id c ≠ k) (categories s);
     locations := locations s;
     posts := collect_posts Post_category_field Post.category with_category_null
                k (posts s) |}.

Definition Location_delete (k : Z) (s : Store) : Store :=
  {| users := users s;
     categories := categories s;
     locations := base.filter (λ l, Location.id l ≠ k) (locations s);
     posts := collect_posts Post_location_field Post.location with_location_null
                k (posts s) |}.

Definition User_delete (k : Z) (s : Store) : Store :=
  {| users := base.filter (λ u, User.id u ≠ k) (users s);
     categories := categories s;
     locations := locations s;
     posts := collect_posts Post_author_field (λ p, Some (Post.author p)) (λ p, p)
                k (posts s) |}.

(** ** More names for statements *)

(** The list a view's template showed under ["post_list"], if the view
    answered. *)
Definition shown_posts (r : Store * (Exn + HttpResponse)) : option (list Post.t) :=
  match r.2 with
  | inr resp =>
      match context_data resp !! "post_list" with
      | Some (ShownPosts l) => Some l
      | _ => None
      end
  | inl _ => None
  end.

(** The post a view's template showed under ["post"]. *)
Definition shown_post (r : Store * (Exn + HttpResponse)) : option Post.t :=
  match r.2 with
  | inr resp =>
      match context_data resp !! "post" with
      | Some (ShownPost p) => Some p
      | _ => None
      end
  | inl _ => None
  end.

(** The category a view's template showed under ["category"]. *)
Definition shown_category (r : Store * (Exn + HttpResponse)) : option Category.t :=
  match r.2 with
  | inr resp =>
      match context_data resp !! "category" with
      | Some (ShownCategory c) => Some c
      | _ => None
      end
  | inl _ => None
  end.

(** The exception a computation ended with, if it did. *)
Definition raised {A} (r : Store * (Exn + A)) : option Exn :=
  match r.2 with
  | inl x => Some x
  | inr _ => None
  end.

(** [r] is the beginning of [full]: its first [n] characters. *)
Definition truncation (full : string) (n : nat) (r : string) : Prop :=
  characters r = take n (characters full) ∧ ∃ rest, full = r +:+ rest.

(** A list of characters as [characters] yields it: every byte after the
    first of a character is a continuation byte, and every character but
    the first begins with a byte that is not. *)
Fixpoint all_continuation (t : string) : bool :=
  match t with
  | EmptyString => true
  | String b t' => is_continuation b && all_continuation t'
  end.

Definition one_character (c : string) : Prop :=
  match c with
  | String _ t => all_continuation t = true
  | EmptyString => False
  end.

Fixpoint well_split (cs : list string) : Prop :=
  match cs with
  | [] => True
  | c :: cs' =>
      one_character c
      ∧ match cs' with
        | [] => True
        | c' :: _ => c' ≠ "" ∧ continues c' = false
        end
      ∧ well_split cs'
  end.

(** What the rows of a SET_NULL reference become when row [k] goes. *)
Definition clear_location (k : Z) (p : Post.t) : Post.t :=
  if decide (Post.location p = Some k) then with_location_null p else p.

Definition clear_category (k : Z) (p : Post.t) : Post.t :=
  if decide (Post.category p = Some k) then with_category_null p else p.

(** * Properties *)

(** ** Orderings are total preorders, so a query result is sorted *)
Section OrderingFacts.
Context {R : Type} `{Model R}.

Lemma order_term_compare_key term (a b : R) :
  order_term_compare term a b = (order_term_key term a ?= order_term_key term b).
Proof.
  unfold order_term_compare, order_term_key.
  destruct term as [|c f]; [by destruct (sort_key _)|].
  destruct c as [[] [] [] [] [] [] [] []];
    solve [ by destruct (sort_key _)
          | destruct (sort_key f); [by rewrite Z.compare_opp | done] ].
Qed.

Lemma ordering_compare_antisym terms (a b : R) :
  ordering_compare terms b a = CompOpp (ordering_compare terms a b).
Proof.
  induction terms as [|t ts IH]; simpl; [done|].
  rewrite !order_term_compare_key, (Z.compare_antisym (order_term_key t a)).
  by destruct (order_term_key t a ?= order_term_key t b).
Qed.

Lemma ordering_compare_trans terms (a b c : R) :
  ordering_compare terms a b ≠ Gt → ordering_compare terms b c ≠ Gt →
  ordering_compare terms a c ≠ Gt
  ∧ (ordering_compare terms a c = Eq →
     ordering_compare terms a b = Eq ∧ ordering_compare terms b c = Eq).
Proof.
  induction terms as [|t ts IH]; simpl; [done|].
  rewrite !order_term_compare_key.
  destruct (Z.compare_spec (order_term_key t a) (order_term_key t b));
    destruct (Z.compare_spec (order_term_key t b) (order_term_key t c));
    destruct (Z.compare_spec (order_term_key t a) (order_term_key t c));
    try lia; try done; auto.
Qed.

#[export] Instance ordering_le_total terms : Total (ordering_le (R := R) terms).
Proof.
  intros a b. unfold ordering_le. rewrite (ordering_compare_antisym terms a b).
  destruct (ordering_compare terms a b); simpl; [left|left|right]; congruence.
Qed.

#[export] Instance ordering_le_trans terms : Transitive (ordering_le (R := R) terms).
Proof.
  intros a b c Hab Hbc. by apply (ordering_compare_trans terms a b c).
Qed.

Lemma elem_of_evaluate s (q : QuerySet.t R) r :
  r ∈ QuerySet.evaluate s q ↔ QuerySet.selects s q r ∧ r ∈ table s.
Proof.
  unfold QuerySet.evaluate.
  rewrite merge_sort_Permutation. apply list_elem_of_filter.
Qed.

Lemma evaluate_Permutation s (q : QuerySet.t R) :
  QuerySet.evaluate s q ≡ₚ base.filter (QuerySet.selects s q) (table s).
Proof. apply merge_sort_Permutation. Qed.

Lemma evaluate_StronglySorted s (q : QuerySet.t R) :
  StronglySorted (ordering_le (QuerySet.order_by_ q)) (QuerySet.evaluate s q).
Proof. apply StronglySorted_merge_sort; apply _. Qed.

End OrderingFacts.

Lemma StronglySorted_impl {A} (R1 R2 : relation A) (l : list A) :
  (∀ x y, R1 x y → R2 x y) → StronglySorted R1 l → StronglySorted R2 l.
Proof.
  intros Himpl. induction 1 as [|x l Hl IH Hx]; constructor; [done|].
  eapply Forall_impl; eauto.
Qed.

Lemma StronglySorted_take {A} (R : relation A) (n : nat) (l : list A) :
  StronglySorted R l → StronglySorted R (take n l).
Proof.
  intros Hl. rewrite <-(take_drop n l) in Hl.
  by apply StronglySorted_app_1_l in Hl.
Qed.

(** ** The views only read *)
Section ReadOnly.
Lemma read_only_ret {A} (a : A) : read_only (mret a).
Proof. done. Qed.

Lemma read_only_raise {A} (x : Exn) : read_only (raise (A := A) x).
Proof. done. Qed.

Lemma read_only_bind {A B} (m : DB A) (f : A → DB B) :
  read_only m → (∀ a, read_only (f a)) → read_only (m ≫= f).
Proof.
  intros Hm Hf e s. unfold mbind, DB_bind.
  specialize (Hm e s). destruct (m e s) as [s' [x|a]]; simpl in *; subst s'.
  - done.
  - apply Hf.
Qed.

Lemma read_only_try_except {A} (m handler : DB A) (x : Exn) :
  read_only m → read_only handler → read_only (try_except m x handler).
Proof.
  intros Hm Hh e s. unfold try_except.
  specialize (Hm e s). destruct (m e s) as [s' [y|a]]; simpl in *; subst s'.
  - case_decide; [apply Hh | done].
  - done.
Qed.

Lemma read_only_now : read_only now.
Proof. done. Qed.

Lemma read_only_setting {A} (name : Settings.t → A) : read_only (setting name).
Proof. done. Qed.

Lemma read_only_fetch {R} `{Model R} (q : QuerySet.t R) : read_only (QuerySet.fetch q).
Proof. intros e s. unfold QuerySet.fetch. by case_decide. Qed.

Lemma read_only_slice_stop {R} `{Model R} (q : QuerySet.t R) k :
  read_only (QuerySet.slice_stop q k).
Proof. unfold QuerySet.slice_stop. by case_decide. Qed.

Lemma read_only_render request template ctx : read_only (render request template ctx).
Proof. done. Qed.
End ReadOnly.

Create HintDb read_only.
#[export] Hint Resolve read_only_ret read_only_raise read_only_bind
  read_only_try_except read_only_now read_only_setting read_only_fetch
  read_only_slice_stop read_only_render : read_only.

Lemma read_only_get {R} `{Model R} (q : QuerySet.t R) kwargs :
  read_only (QuerySet.get q kwargs).
Proof.
  unfold QuerySet.get. apply read_only_bind; [auto with read_only|].
  intros [|r [|r' rows]]; auto with read_only.
Qed.

Lemma read_only_get_object_or_404 {R} `{Model R} (q : QuerySet.t R) kwargs :
  read_only (get_object_or_404 q kwargs).
Proof.
  unfold get_object_or_404.
  apply read_only_try_except; [apply read_only_get | auto with read_only].
Qed.

Lemma read_only_get_queryset : read_only PublishedPostsManager.get_queryset.
Proof. unfold PublishedPostsManager.get_queryset. auto with read_only. Qed.

Lemma read_only_published_all : read_only PublishedPostsManager.all.
Proof.
  unfold PublishedPostsManager.all.
  apply read_only_bind; [apply read_only_get_queryset | auto with read_only].
Qed.

Lemma read_only_published_filter kwargs :
  read_only (PublishedPostsManager.filter kwargs).
Proof.
  unfold PublishedPostsManager.filter.
  apply read_only_bind; [apply read_only_get_queryset | auto with read_only].
Qed.

#[export] Hint Resolve read_only_get read_only_get_object_or_404
  read_only_get_queryset read_only_published_all read_only_published_filter
  : read_only.

(** C9. Each of the three views ([index], [post_detail], [category_posts])
    returns the store it was given, whatever the request, the clock, the
    settings and the store are, and whether it answers or raises (Http404
    included): no table of users, categories, locations or posts changes. *)
Theorem views_leave_store_unchanged request post_id category_slug e s :
  (index request e s).1 = s
  ∧ (post_detail request post_id e s).1 = s
  ∧ (category_posts request category_slug e s).1 = s.
Proof.
  split_and!.
  - revert e s. change (read_only (index request)).
    unfold index. repeat (apply read_only_bind; [auto with read_only | intros ?]).
    auto with read_only.
  - revert e s. change (read_only (post_detail request post_id)).
    unfold post_detail. repeat (apply read_only_bind; [auto with read_only | intros ?]).
    auto with read_only.
  - revert e s. change (read_only (category_posts request category_slug)).
    unfold category_posts.
    repeat (apply read_only_bind; [auto with read_only | intros ?]).
    auto with read_only.
Qed.

(** ** The visibility rule *)

Lemma category_by_pk_Some s k c :
  category_by_pk s k = Some c → c ∈ categories s ∧ Category.id c = k.
Proof.
  unfold category_by_pk. intros Hfind. apply find_some in Hfind as [Hin Hk].
  split; [by apply list_elem_of_In | by apply bool_decide_eq_true in Hk].
Qed.

Lemma published_category_lookup s p :
  Category.is_published <$> Post_category s p = Some true ↔ published_category s p.
Proof.
  unfold published_category, Post_category. split.
  - destruct (Post.category p) as [k|]; simpl; [|done].
    destruct (category_by_pk s k) as [c|] eqn:Hc; simpl; [|done].
    intros [= Hpub]. by exists k, c.
  - intros (k & c & -> & Hc & Hpub). simpl. rewrite Hc. simpl. by rewrite Hpub.
Qed.

Lemma published_at_selects s t p :
  QuerySet.selects s (PublishedPostsManager.published_at t) p ↔
    Post.is_published p = true ∧ Post.pub_date p < t ∧ published_category s p.
Proof.
  unfold QuerySet.selects, PublishedPostsManager.published_at. simpl.
  rewrite !Forall_cons, Forall_nil. simpl.
  rewrite published_category_lookup. tauto.
Qed.

Lemma elem_of_visible_posts s t p :
  p ∈ visible_posts s t ↔
    p ∈ posts s ∧ Post.is_published p = true ∧ Post.pub_date p < t
    ∧ published_category s p.
Proof.
  unfold visible_posts. rewrite elem_of_evaluate, published_at_selects.
  simpl. tauto.
Qed.

Lemma get_queryset_run e s :
  PublishedPostsManager.get_queryset e s
  = (s, inr (PublishedPostsManager.published_at (clock e))).
Proof. done. Qed.

(** C1, as the code has it. [PublishedPostsManager.get_queryset] reads the
    clock when it is called and never fails; a post is among the rows of the
    query it returns exactly when the post is in the table, its
    [is_published] flag is set, its [pub_date] is strictly before the clock
    reading, and its category reference is not null and leads to a published
    category.  A post without a category is therefore not visible. *)
Theorem published_posts_iff e s p :
  ∃ q, PublishedPostsManager.get_queryset e s = (s, inr q)
    ∧ (p ∈ QuerySet.evaluate s q ↔
         p ∈ posts s ∧ Post.is_published p = true ∧ Post.pub_date p < clock e
         ∧ published_category s p).
Proof.
  eexists. split; [apply get_queryset_run|]. apply elem_of_visible_posts.
Qed.

(** C1 as stated fails: a published post dated in the past whose category
    reference is null meets the stated condition (category null or
    published) and is not among the published posts. *)
Lemma null_category_post_not_visible :
  let p := Sample.post 1 5 None true in
  let s := Sample.store [p] in
  p ∈ posts s ∧ Post.is_published p = true ∧ Post.pub_date p < 10
  ∧ null_or_published_category s p
  ∧ PublishedPostsManager.get_queryset (Sample.env 10 5) s
    = (s, inr (PublishedPostsManager.published_at 10))
  ∧ p ∉ QuerySet.evaluate s (PublishedPostsManager.published_at 10).
Proof.
  simpl. split_and!; [by left | done | done | by left | done |].
  change (QuerySet.evaluate _ _) with (visible_posts (Sample.store [Sample.post 1 5 None true]) 10).
  rewrite elem_of_visible_posts. intros (_ & _ & _ & k & c & Hk & _). discriminate Hk.
Qed.

(** ** Default orders *)

Lemma Post_ordering_le a b :
  ordering_le (Meta_ordering Post.Meta) a b ↔ Post.pub_date b ≤ Post.pub_date a.
Proof.
  change (ordering_le _ a b)
    with (match Post.pub_date b ?= Post.pub_date a with Eq => Eq | c => c end ≠ Gt).
  destruct (Z.compare_spec (Post.pub_date b) (Post.pub_date a)); split; (lia || done).
Qed.

Lemma Category_ordering_le a b :
  ordering_le (Meta_ordering Category.Meta) a b ↔
    Category.created_at a ≤ Category.created_at b.
Proof.
  change (ordering_le _ a b)
    with (match Category.created_at a ?= Category.created_at b with
          | Eq => Eq | c => c end ≠ Gt).
  destruct (Z.compare_spec (Category.created_at a) (Category.created_at b));
    split; (lia || done).
Qed.

Lemma Location_ordering_le a b :
  ordering_le (Meta_ordering Location.Meta) a b ↔
    Location.created_at a ≤ Location.created_at b.
Proof.
  change (ordering_le _ a b)
    with (match Location.created_at a ?= Location.created_at b with
          | Eq => Eq | c => c end ≠ Gt).
  destruct (Z.compare_spec (Location.created_at a) (Location.created_at b));
    split; (lia || done).
Qed.

Lemma visible_posts_descending s t : pub_date_descending (visible_posts s t).
Proof.
  unfold pub_date_descending, visible_posts.
  eapply StronglySorted_impl; [|apply evaluate_StronglySorted].
  intros a b. apply Post_ordering_le.
Qed.

Lemma descending_NoDup_strict l :
  pub_date_descending l → NoDup (Post.pub_date <$> l) →
  pub_date_strictly_descending l.
Proof.
  unfold pub_date_descending, pub_date_strictly_descending.
  induction 1 as [|x l Hl IH Hx]; intros Hnd; [constructor|].
  rewrite fmap_cons in Hnd. apply NoDup_cons in Hnd as [Hnotin Hnd].
  constructor; [auto|].
  rewrite Forall_forall in Hx |- *. intros y Hy.
  assert (Post.pub_date y ≠ Post.pub_date x).
  { intros Heq. apply Hnotin. rewrite <-Heq. by apply list_elem_of_fmap_2. }
  specialize (Hx y Hy). simpl in Hx. lia.
Qed.

(** ** The index view *)

Lemma index_run request e s :
  0 ≤ Settings.POSTS_BY_PAGE (settings e) →
  index request e s =
    (s, inr {| template_name := "blog/index.html";
               context :=
                 {[ "post_list" :=
                      PostSlice
                        {| QuerySet.query := PublishedPostsManager.published_at (clock e);
                           QuerySet.stop := Z.to_nat (Settings.POSTS_BY_PAGE (settings e)) |} ]};
               context_data :=
                 {[ "post_list" :=
                      ShownPosts (take (Z.to_nat (Settings.POSTS_BY_PAGE (settings e)))
                                    (visible_posts s (clock e))) ]} |}).
Proof.
  intros Hk. unfold index, mbind, DB_bind, PublishedPostsManager.all; simpl.
  unfold setting, QuerySet.slice_stop.
  case_decide; [lia|]. simpl. unfold render.
  by rewrite map_fmap_singleton.
Qed.

Lemma index_negative_page request e s :
  Settings.POSTS_BY_PAGE (settings e) < 0 →
  index request e s = (s, inl AssertionError).
Proof.
  intros Hk. unfold index, mbind, DB_bind, PublishedPostsManager.all; simpl.
  unfold setting, QuerySet.slice_stop. by case_decide; [|lia].
Qed.

(** C2, as the code has it. With a positive page size [n], [index] answers,
    and the list its template shows under ["post_list"] is the first [n]
    rows of the published posts: at most [n] items, each a visible post,
    ordered by [pub_date] descending, fewer than [n] only when fewer than
    [n] posts are visible.  Posts with equal [pub_date] are neighbours, in an
    order the query does not fix; the order is strictly descending when no
    two visible posts share a [pub_date]. *)
Theorem index_recent_posts request e s :
  0 < Settings.POSTS_BY_PAGE (settings e) →
  ∃ resp l,
    index request e s = (s, inr resp)
    ∧ context_data resp !! "post_list" = Some (ShownPosts l)
    ∧ l = take (Z.to_nat (Settings.POSTS_BY_PAGE (settings e)))
            (visible_posts s (clock e))
    ∧ Z.of_nat (length l) ≤ Settings.POSTS_BY_PAGE (settings e)
    ∧ (∀ p, p ∈ l → p ∈ visible_posts s (clock e))
    ∧ pub_date_descending l
    ∧ (Z.of_nat (length l) < Settings.POSTS_BY_PAGE (settings e) →
       Z.of_nat (length (visible_posts s (clock e)))
       < Settings.POSTS_BY_PAGE (settings e))
    ∧ (NoDup (Post.pub_date <$> visible_posts s (clock e)) →
       pub_date_strictly_descending l).
Proof.
  set (n := Settings.POSTS_BY_PAGE (settings e)). intros Hn. do 2 eexists.
  split; [apply index_run; fold n; lia|]. simpl.
  split; [apply lookup_singleton_eq|].
  split; [done|]. fold n.
  assert (length (take (Z.to_nat n) (visible_posts s (clock e)))
          = (Z.to_nat n `min` length (visible_posts s (clock e)))%nat) as Hlen
    by apply length_take.
  split_and!.
  - lia.
  - intros p Hp. by eapply subseteq_take.
  - apply StronglySorted_take, visible_posts_descending.
  - lia.
  - intros Hnd. apply descending_NoDup_strict.
    + apply StronglySorted_take, visible_posts_descending.
    + rewrite fmap_take. eapply sublist_NoDup; [done | apply sublist_take].
Qed.

(** The theorem at work: two visible posts of different dates, page size 1. *)
Lemma index_recent_posts_sample :
  ∃ resp l,
    index Sample.request (Sample.env 10 1)
      (Sample.store [Sample.post 1 5 (Some 1) true; Sample.post 2 7 (Some 1) true])
    = (Sample.store [Sample.post 1 5 (Some 1) true; Sample.post 2 7 (Some 1) true],
       inr resp)
    ∧ context_data resp !! "post_list" = Some (ShownPosts l)
    ∧ Z.of_nat (length l) ≤ 1
    ∧ pub_date_descending l.
Proof.
  destruct (index_recent_posts Sample.request (Sample.env 10 1)
              (Sample.store [Sample.post 1 5 (Some 1) true; Sample.post 2 7 (Some 1) true]))
    as (resp & l & Hrun & Hctx & _ & Hlen & _ & Hsorted & _).
  - simpl. lia.
  - exists resp, l. auto.
Defined.

(** C2 as stated fails on ties: two visible posts published at the same
    instant are both listed, so the listing is not strictly descending. *)
Lemma index_ties_not_strict :
  let s := Sample.store [Sample.post 1 5 (Some 1) true; Sample.post 2 5 (Some 1) true] in
  ∃ resp l,
    index Sample.request (Sample.env 10 2) s = (s, inr resp)
    ∧ context_data resp !! "post_list" = Some (ShownPosts l)
    ∧ length l = 2%nat
    ∧ ¬ pub_date_strictly_descending l.
Proof.
  simpl. do 2 eexists. split; [apply index_run; simpl; lia|]. simpl.
  split; [apply lookup_singleton_eq|].
  split; [by vm_compute|].
  intros Hs. vm_compute in Hs.
  apply StronglySorted_cons in Hs as [Hhd _].
  apply Forall_cons in Hhd as [Hlt _]. vm_compute in Hlt. discriminate Hlt.
Qed.

(** ** Looking up one row *)

Lemma NoDup_fmap_eq {A B} (f : A → B) (l : list A) x y :
  NoDup (f <$> l) → x ∈ l → y ∈ l → f x = f y → x = y.
Proof.
  induction l as [|a l IH]; intros Hnd Hx Hy Hf; [by apply not_elem_of_nil in Hx|].
  rewrite fmap_cons in Hnd. apply NoDup_cons in Hnd as [Ha Hnd].
  apply elem_of_cons in Hx as [->|Hx]; apply elem_of_cons in Hy as [->|Hy]; auto.
  - destruct Ha. rewrite Hf. by apply list_elem_of_fmap_2.
  - destruct Ha. rewrite <-Hf. by apply list_elem_of_fmap_2.
Qed.

Lemma NoDup_all_equal {A} (l : list A) (a : A) :
  NoDup l → (∀ x, x ∈ l → x = a) → (length l ≤ 1)%nat.
Proof.
  destruct l as [|x [|y l]]; simpl; intros Hnd Hall; [lia | lia |].
  apply NoDup_cons in Hnd as [Hx _]. destruct Hx.
  rewrite (Hall x), (Hall y); [left | right; left | left].
Qed.

Section UniqueKey.
Context {R K : Type} `{Model R}.

Lemma selects_filter s (q : QuerySet.t R) kwargs r :
  QuerySet.selects s (QuerySet.filter kwargs q) r ↔
    QuerySet.selects s q r ∧ Forall (λ l, matches s l r) kwargs.
Proof. unfold QuerySet.selects, QuerySet.filter. simpl. apply Forall_app. Qed.

(** A query that pins a unique column to one value has at most one row. *)
Lemma evaluate_unique_key (key : R → K) (k : K) s (q : QuerySet.t R) :
  NoDup (key <$> table s) →
  (∀ r, QuerySet.selects s q r → key r = k) →
  (length (QuerySet.evaluate s q) ≤ 1)%nat.
Proof.
  intros Hnd Hkey.
  rewrite (Permutation_length (evaluate_Permutation s q)).
  rewrite <-(length_fmap key).
  apply (NoDup_all_equal _ k).
  - eapply sublist_NoDup; [exact Hnd|]. apply fmap_sublist, sublist_filter.
  - intros x (r & -> & Hr)%list_elem_of_fmap.
    apply list_elem_of_filter in Hr as [Hsel _]. by apply Hkey.
Qed.

Lemma evaluate_singleton (key : R → K) (k : K) s (q : QuerySet.t R) r :
  NoDup (key <$> table s) →
  (∀ r', QuerySet.selects s q r' → key r' = k) →
  r ∈ QuerySet.evaluate s q →
  QuerySet.evaluate s q = [r].
Proof.
  intros Hnd Hkey Hr.
  pose proof (evaluate_unique_key key k s q Hnd Hkey) as Hlen.
  destruct (QuerySet.evaluate s q) as [|r1 [|r2 l]]; simpl in Hlen.
  - by apply not_elem_of_nil in Hr.
  - by apply list_elem_of_singleton in Hr as ->.
  - lia.
Qed.
End UniqueKey.

(** ** The post page *)

(** The query [post_detail] hands to [get_object_or_404]. *)
Lemma elem_of_post_query s t k p :
  p ∈ QuerySet.evaluate s
        (QuerySet.filter (R := Post.t) [id_exact k] (PublishedPostsManager.published_at t))
  ↔ p ∈ visible_posts s t ∧ Post.id p = k.
Proof.
  rewrite elem_of_evaluate, selects_filter, Forall_singleton. simpl.
  unfold visible_posts. rewrite elem_of_evaluate. simpl. tauto.
Qed.

Lemma post_query_binds k t :
  QuerySet.binds
    (QuerySet.filter (R := Post.t) [id_exact k] (PublishedPostsManager.published_at t))
  ↔ int64 k.
Proof.
  unfold QuerySet.binds. simpl. rewrite Forall_singleton. done.
Qed.

Lemma get_object_or_404_run {R} `{Model R} (q : QuerySet.t R) kwargs e s :
  get_object_or_404 q kwargs e s =
    if decide (QuerySet.binds (QuerySet.filter kwargs q)) then
      match QuerySet.evaluate s (QuerySet.filter kwargs q) with
      | [] => (s, inl Http404)
      | [r] => (s, inr r)
      | _ => (s, inl MultipleObjectsReturned)
      end
    else (s, inl OverflowError).
Proof.
  unfold get_object_or_404, try_except, QuerySet.get, QuerySet.fetch, mbind, DB_bind.
  case_decide; [|done].
  by destruct (QuerySet.evaluate s _) as [|r [|r' rows]].
Qed.

Lemma post_detail_unfold request k e s :
  post_detail request k e s =
    match get_object_or_404 (R := Post.t)
            (PublishedPostsManager.published_at (clock e)) [id_exact k] e s with
    | (s', inr post) => render request "blog/detail.html" {[ "post" := APost post ]} e s'
    | (s', inl x) => (s', inl x)
    end.
Proof. reflexivity. Qed.

Lemma post_detail_cases request k e s :
  int64 k →
  post_detail request k e s =
    match QuerySet.evaluate s
            (QuerySet.filter (R := Post.t) [id_exact k]
               (PublishedPostsManager.published_at (clock e))) with
    | [] => (s, inl Http404)
    | [p] => (s, inr {| template_name := "blog/detail.html";
                        context := {[ "post" := APost p ]};
                        context_data := {[ "post" := ShownPost p ]} |})
    | _ => (s, inl MultipleObjectsReturned)
    end.
Proof.
  intros Hk%(post_query_binds k (clock e)).
  rewrite post_detail_unfold, get_object_or_404_run, decide_True by done.
  by destruct (QuerySet.evaluate s _) as [|p [|p' rows]].
Qed.

(** An id the driver cannot bind: the lookup ends in OverflowError, which
    [get_object_or_404] lets through. *)
Lemma post_detail_overflow request k e s :
  ¬ int64 k → post_detail request k e s = (s, inl OverflowError).
Proof.
  rewrite <-(post_query_binds k (clock e)). intros Hk.
  by rewrite post_detail_unfold, get_object_or_404_run, decide_False by done.
Qed.

Lemma post_detail_found request e s p :
  unique_post_ids s → int64 (Post.id p) → p ∈ visible_posts s (clock e) →
  post_detail request (Post.id p) e s =
    (s, inr {| template_name := "blog/detail.html";
               context := {[ "post" := APost p ]};
               context_data := {[ "post" := ShownPost p ]} |}).
Proof.
  intros Huniq Hfit Hvis. rewrite post_detail_cases by done.
  rewrite (evaluate_singleton Post.id (Post.id p) s _ p); [done | exact Huniq | |].
  - intros r [_ Hid]%selects_filter. by rewrite Forall_singleton in Hid.
  - by apply elem_of_post_query.
Qed.

Lemma post_detail_not_found request k e s :
  int64 k →
  (∀ p, p ∈ visible_posts s (clock e) → Post.id p ≠ k) →
  post_detail request k e s = (s, inl Http404).
Proof.
  intros Hk Hnone. rewrite post_detail_cases by done.
  destruct (QuerySet.evaluate s _) as [|p rows] eqn:E; [done|].
  assert (p ∈ visible_posts s (clock e) ∧ Post.id p = k) as [Hvis Hid].
  { apply elem_of_post_query. rewrite E. left. }
  by destruct (Hnone p Hvis).
Qed.

(** C3, where the code departs from it. For an id outside the signed 64-bit
    range of the id column no post exists (the ids stored fit the column),
    so the claim, like the docstring of [post_detail], asks for Http404;
    the lookup instead ends in OverflowError, an exception
    [get_object_or_404] does not turn into Http404. *)
Theorem post_detail_overflow_is_not_404 request post_id e s :
  ¬ int64 post_id →
  post_ids_fit s →
  (∀ p, p ∈ posts s → Post.id p ≠ post_id)
  ∧ post_detail request post_id e s = (s, inl OverflowError)
  ∧ post_detail request post_id e s ≠ (s, inl Http404).
Proof.
  intros Hk Hfit. split_and!.
  - intros p Hp Hid. apply Hk. rewrite <-Hid.
    unfold post_ids_fit in Hfit. rewrite Forall_forall in Hfit. by apply Hfit.
  - by apply post_detail_overflow.
  - by rewrite post_detail_overflow.
Qed.

(** The theorem at work: the first id past the column's range. *)
Lemma post_detail_overflow_sample :
  post_detail Sample.request 9223372036854775808 (Sample.env 10 5)
    (Sample.store [Sample.post 1 5 (Some 1) true])
  = (Sample.store [Sample.post 1 5 (Some 1) true], inl OverflowError).
Proof.
  refine (proj1 (proj2 (post_detail_overflow_is_not_404 Sample.request
            9223372036854775808 (Sample.env 10 5)
            (Sample.store [Sample.post 1 5 (Some 1) true]) _ _))).
  - unfold int64. lia.
  - unfold post_ids_fit. simpl. apply (bool_decide_unpack _). by vm_compute.
Defined.

(** X18. For an id within the signed 64-bit range, in a store whose post ids
    are unique, [post_detail] answers with a post under ["post"] exactly when
    that post has the requested id and is among the published posts at the
    time of the call; when no such post exists it raises Http404, and so it
    does when a post with that id is in the table but is unpublished, is
    dated now or later, or has no published category: the caller gets the
    same error as for an id that no post has. *)
Theorem post_detail_visible_or_404 request post_id e s :
  int64 post_id →
  unique_post_ids s →
  (∀ p, (∃ resp, post_detail request post_id e s = (s, inr resp)
               ∧ context resp !! "post" = Some (APost p)
               ∧ context_data resp !! "post" = Some (ShownPost p))
        ↔ p ∈ visible_posts s (clock e) ∧ Post.id p = post_id)
  ∧ ((∀ p, p ∈ visible_posts s (clock e) → Post.id p ≠ post_id) →
     post_detail request post_id e s = (s, inl Http404))
  ∧ (∀ p, p ∈ posts s → Post.id p = post_id →
       Post.is_published p = false ∨ clock e ≤ Post.pub_date p
       ∨ ¬ published_category s p →
       post_detail request post_id e s = (s, inl Http404))
  ∧ ((∀ p, p ∈ posts s → Post.id p ≠ post_id) →
     post_detail request post_id e s = (s, inl Http404)).
Proof.
  intros Hfit Huniq. split_and!.
  - intros p. split.
    + intros (resp & Hrun & _ & Hshown). rewrite post_detail_cases in Hrun by done.
      destruct (QuerySet.evaluate s _) as [|p1 [|p2 rows]] eqn:E; try discriminate Hrun.
      injection Hrun as <-. simpl in Hshown.
      rewrite lookup_singleton_eq in Hshown. injection Hshown as ->.
      apply elem_of_post_query. rewrite E. left.
    + intros [Hvis <-]. eexists. split; [by apply post_detail_found|].
      simpl. by rewrite !lookup_singleton_eq.
  - by apply post_detail_not_found.
  - intros p Hp Hid Hhidden. apply post_detail_not_found; [done|].
    intros q Hq Hidq.
    assert (q = p) as ->.
    { apply elem_of_visible_posts in Hq as (Hq & _).
      apply (NoDup_fmap_eq Post.id (posts s)); [exact Huniq | done | done | congruence]. }
    apply elem_of_visible_posts in Hq as (_ & Hpub & Hdate & Hcat).
    destruct Hhidden as [Hunpub | [Hfuture | Hnocat]]; [congruence | lia | done].
  - intros Hnone. apply post_detail_not_found; [done|].
    intros q Hq. apply Hnone. by apply elem_of_visible_posts in Hq as (Hq & _).
Qed.

(** The theorem at work: post 2 is dated after the clock reading, post 3 sits
    in the unpublished category; asking for post 2 is a 404. *)
Lemma post_detail_sample :
  post_detail Sample.request 2 (Sample.env 10 5)
    (Sample.store [Sample.post 1 5 (Some 1) true; Sample.post 2 11 (Some 1) true;
                   Sample.post 3 5 (Some 2) true])
  = (Sample.store [Sample.post 1 5 (Some 1) true; Sample.post 2 11 (Some 1) true;
                   Sample.post 3 5 (Some 2) true],
     inl Http404).
Proof.
  refine (proj1 (proj2 (proj2 (post_detail_visible_or_404 Sample.request 2
            (Sample.env 10 5) _ _ _))) (Sample.post 2 11 (Some 1) true) _ _ _).
  - unfold int64. lia.
  - unfold unique_post_ids. simpl. apply (bool_decide_unpack _). by vm_compute.
  - simpl. right. left.
  - reflexivity.
  - right. left. simpl. lia.
Defined.

(** ** The category page *)

(** The category query of [category_posts]: slug and publication flag. *)
Lemma category_query_selects s v (c : Category.t) :
  QuerySet.selects s
    (QuerySet.filter (R := Category.t) [slug_exact v; category_is_published_exact true]
       (QuerySet.all QuerySet.Manager_get_queryset)) c
  ↔ Category.slug c = v ∧ Category.is_published c = true.
Proof.
  rewrite selects_filter. unfold QuerySet.selects, QuerySet.all. simpl.
  rewrite !Forall_cons, !Forall_nil. simpl. tauto.
Qed.

Lemma elem_of_category_query s v (c : Category.t) :
  c ∈ QuerySet.evaluate s
        (QuerySet.filter (R := Category.t) [slug_exact v; category_is_published_exact true]
           (QuerySet.all QuerySet.Manager_get_queryset))
  ↔ c ∈ categories s ∧ Category.slug c = v ∧ Category.is_published c = true.
Proof. rewrite elem_of_evaluate, category_query_selects. simpl. tauto. Qed.

(** The post query of [category_posts]. *)
Lemma elem_of_category_post_query s t v p :
  p ∈ QuerySet.evaluate s
        (QuerySet.filter (R := Post.t) [category__slug v]
           (PublishedPostsManager.published_at t))
  ↔ p ∈ visible_posts s t ∧ Category.slug <$> Post_category s p = Some v.
Proof.
  rewrite elem_of_evaluate, selects_filter, Forall_singleton. simpl.
  unfold visible_posts. rewrite elem_of_evaluate. simpl. tauto.
Qed.

Lemma category_slug_lookup s p v :
  Category.slug <$> Post_category s p = Some v ↔
    ∃ k c, Post.category p = Some k ∧ category_by_pk s k = Some c
           ∧ Category.slug c = v.
Proof.
  unfold Post_category. split.
  - destruct (Post.category p) as [k|]; simpl; [|done].
    destruct (category_by_pk s k) as [c|] eqn:Hc; simpl; [|done].
    intros [= Hslug]. by exists k, c.
  - intros (k & c & -> & Hc & Hslug). simpl. rewrite Hc. simpl. by rewrite Hslug.
Qed.

Lemma category_posts_cases request v e s :
  category_posts request v e s =
    match QuerySet.evaluate s
            (QuerySet.filter (R := Category.t) [slug_exact v; category_is_published_exact true]
               (QuerySet.all QuerySet.Manager_get_queryset)) with
    | [] => (s, inl Http404)
    | [c] =>
        (s, inr {| template_name := "blog/category.html";
                   context :=
                     {[ "category" := ACategory c;
                        "post_list" :=
                          PostQuery
                            (QuerySet.filter (R := Post.t) [category__slug v]
                               (PublishedPostsManager.published_at (clock e))) ]};
                   context_data :=
                     {[ "category" := ShownCategory c;
                        "post_list" :=
                          ShownPosts
                            (QuerySet.evaluate s
                               (QuerySet.filter (R := Post.t) [category__slug v]
                                  (PublishedPostsManager.published_at (clock e)))) ]} |})
    | _ => (s, inl MultipleObjectsReturned)
    end.
Proof.
  unfold category_posts, get_object_or_404, try_except, QuerySet.get, QuerySet.fetch,
    mbind, DB_bind, PublishedPostsManager.filter; simpl.
  by destruct (QuerySet.evaluate s _) as [|c [|c' rows]].
Qed.

Lemma category_posts_run request e s c :
  unique_slugs s → c ∈ categories s → Category.is_published c = true →
  category_posts request (Category.slug c) e s =
    (s, inr {| template_name := "blog/category.html";
               context :=
                 {[ "category" := ACategory c;
                    "post_list" :=
                      PostQuery
                        (QuerySet.filter (R := Post.t) [category__slug (Category.slug c)]
                           (PublishedPostsManager.published_at (clock e))) ]};
               context_data :=
                 {[ "category" := ShownCategory c;
                    "post_list" :=
                      ShownPosts
                        (QuerySet.evaluate s
                           (QuerySet.filter (R := Post.t)
                              [category__slug (Category.slug c)]
                              (PublishedPostsManager.published_at (clock e)))) ]} |}).
Proof.
  intros Huniq Hc Hpub. rewrite category_posts_cases.
  rewrite (evaluate_singleton Category.slug (Category.slug c) s _ c); [done | exact Huniq | |].
  - by intros r [Hslug _]%category_query_selects.
  - by apply elem_of_category_query.
Qed.

(** The posts on the page of slug [v]: published posts whose category has
    that slug. *)
Lemma elem_of_category_page s t v p :
  p ∈ QuerySet.evaluate s
        (QuerySet.filter (R := Post.t) [category__slug v]
           (PublishedPostsManager.published_at t))
  ↔ p ∈ posts s ∧ Post.is_published p = true ∧ Post.pub_date p < t
    ∧ ∃ k c, Post.category p = Some k ∧ category_by_pk s k = Some c
             ∧ Category.is_published c = true ∧ Category.slug c = v.
Proof.
  rewrite elem_of_category_post_query, elem_of_visible_posts, category_slug_lookup.
  unfold published_category. split.
  - intros ((Hp & Hflag & Hdate & k & c' & Hk & Hc' & Hpub') & k2 & c2 & Hk2 & Hc2 & Hslug).
    assert (k2 = k) as -> by congruence. assert (c2 = c') as -> by congruence.
    split_and!; try done. by exists k, c'.
  - intros (Hp & Hflag & Hdate & k & c' & Hk & Hc' & Hpub' & Hslug).
    split; [split_and!; try done|]; by exists k, c'.
Qed.

(** C4. [category_posts] raises Http404 exactly when the category table has
    no row with the requested slug and [is_published] set; the posts table
    plays no part in it, and a category with that slug that is unpublished
    counts for nothing. *)
Theorem category_posts_404_iff request category_slug e s :
  (category_posts request category_slug e s).2 = inl Http404
  ↔ ¬ ∃ c, c ∈ categories s ∧ Category.slug c = category_slug
           ∧ Category.is_published c = true.
Proof.
  rewrite category_posts_cases.
  destruct (QuerySet.evaluate s _) as [|c rows] eqn:E.
  - split; [|done]. intros _ (c & Hc).
    apply elem_of_category_query in Hc. rewrite E in Hc.
    by apply not_elem_of_nil in Hc.
  - assert (c ∈ categories s ∧ Category.slug c = category_slug
            ∧ Category.is_published c = true) as Hc.
    { apply elem_of_category_query. rewrite E. left. }
    split.
    + by destruct rows.
    + intros Hnone. destruct Hnone. by exists c.
Qed.

(** C5. In a store with unique slugs, for the slug of a published category
    [category_posts] answers; the query it passes under ["post_list"] carries
    the three visibility lookups of the manager together with the slug
    lookup, and the list shown holds exactly the posts of the table that are
    published, dated strictly before the clock reading, and whose category
    is published and has the requested slug. *)
Theorem category_posts_visible_in_category request e s c :
  unique_slugs s →
  c ∈ categories s →
  Category.is_published c = true →
  ∃ resp q l,
    category_posts request (Category.slug c) e s = (s, inr resp)
    ∧ context_data resp !! "category" = Some (ShownCategory c)
    ∧ context resp !! "post_list" = Some (PostQuery q)
    ∧ QuerySet.where_ q =
        [is_published_exact true; pub_date__lt (clock e);
         category__is_published true; category__slug (Category.slug c)]
    ∧ context_data resp !! "post_list" = Some (ShownPosts l)
    ∧ l = QuerySet.evaluate s q
    ∧ ∀ p, p ∈ l ↔
        p ∈ posts s ∧ Post.is_published p = true ∧ Post.pub_date p < clock e
        ∧ ∃ k c', Post.category p = Some k ∧ category_by_pk s k = Some c'
                  ∧ Category.is_published c' = true
                  ∧ Category.slug c' = Category.slug c.
Proof.
  intros Huniq Hc Hpub. do 3 eexists.
  split; [by apply category_posts_run|].
  simpl. split_and!; try done.
  intros p. apply elem_of_category_page.
Qed.

(** The theorem at work on the sample blog: the news page. *)
Lemma category_posts_sample :
  ∃ resp l,
    category_posts Sample.request "news" (Sample.env 10 5)
      (Sample.store [Sample.post 1 5 (Some 1) true; Sample.post 2 11 (Some 1) true;
                     Sample.post 3 5 (Some 2) true])
    = (Sample.store [Sample.post 1 5 (Some 1) true; Sample.post 2 11 (Some 1) true;
                     Sample.post 3 5 (Some 2) true], inr resp)
    ∧ context_data resp !! "post_list" = Some (ShownPosts l)
    ∧ (Sample.post 1 5 (Some 1) true ∈ l ↔
         Sample.post 1 5 (Some 1) true
           ∈ [Sample.post 1 5 (Some 1) true; Sample.post 2 11 (Some 1) true;
              Sample.post 3 5 (Some 2) true]
         ∧ true = true ∧ 5 < 10
         ∧ ∃ k c', Some 1 = Some k
                   ∧ category_by_pk
                       (Sample.store [Sample.post 1 5 (Some 1) true;
                                      Sample.post 2 11 (Some 1) true;
                                      Sample.post 3 5 (Some 2) true]) k = Some c'
                   ∧ Category.is_published c' = true
                   ∧ Category.slug c' = "news").
Proof.
  destruct (category_posts_visible_in_category Sample.request (Sample.env 10 5)
              (Sample.store [Sample.post 1 5 (Some 1) true; Sample.post 2 11 (Some 1) true;
                             Sample.post 3 5 (Some 2) true]) Sample.news)
    as (resp & q & l & Hrun & _ & _ & _ & Hshown & _ & Hiff).
  - unfold unique_slugs. simpl. apply (bool_decide_unpack _). by vm_compute.
  - simpl. left.
  - reflexivity.
  - exists resp, l. split; [exact Hrun|]. split; [exact Hshown|].
    exact (Hiff (Sample.post 1 5 (Some 1) true)).
Defined.

(** ** A publication date that elapses *)

Lemma length_filter_Forall {A} (P : A → Prop) `{∀ x, Decision (P x)} (l : list A) :
  Forall P l → length (base.filter P l) = length l.
Proof.
  induction 1 as [|x l Hx Hl IH]; [done|].
  rewrite filter_cons_True by done. simpl. by rewrite IH.
Qed.

(** In a newest-first list, a post is on the first page of [n] as soon as at
    most [n] rows are dated at or after it. *)
Lemma descending_in_page (l : list Post.t) (p : Post.t) (n : nat) :
  pub_date_descending l → p ∈ l →
  (length (base.filter (λ q, (Post.pub_date p ≤ Post.pub_date q)%Z) l) ≤ n)%nat →
  p ∈ take n l.
Proof.
  unfold pub_date_descending. intros Hsorted Hp Hcount.
  apply list_elem_of_split in Hp as (l1 & l2 & ->).
  apply StronglySorted_app in Hsorted as (Hcross & _ & _).
  rewrite filter_app, length_app in Hcount.
  rewrite length_filter_Forall in Hcount.
  2:{ apply Forall_forall. intros x Hx. apply (Hcross x p Hx). left. }
  rewrite filter_cons_True in Hcount by lia. simpl in Hcount.
  apply elem_of_take. exists (length l1). split; [|lia].
  by rewrite list_lookup_middle.
Qed.

(** A post that is not among the published posts is on neither page. *)
Lemma not_visible_unlisted request e s p c :
  unique_slugs s →
  0 < Settings.POSTS_BY_PAGE (settings e) →
  c ∈ categories s →
  Category.is_published c = true →
  p ∉ visible_posts s (clock e) →
  (∃ resp l, index request e s = (s, inr resp)
           ∧ context_data resp !! "post_list" = Some (ShownPosts l) ∧ p ∉ l)
  ∧ (∃ resp l, category_posts request (Category.slug c) e s = (s, inr resp)
             ∧ context_data resp !! "post_list" = Some (ShownPosts l) ∧ p ∉ l).
Proof.
  intros Huniq Hpage Hc Hpub Habsent. split.
  - do 2 eexists. split; [apply index_run; lia|]. simpl.
    split; [apply lookup_singleton_eq|].
    intros Hin. by apply Habsent, (subseteq_take _ _ _ Hin).
  - do 2 eexists. split; [by apply category_posts_run|]. simpl.
    split; [done|].
    intros (Hp & Hflag & Hdate & k & c' & Hk & Hc' & Hpub' & _)%elem_of_category_page.
    apply Habsent, elem_of_visible_posts. split_and!; try done. by exists k, c'.
Qed.

(** A published post is on the page of its category, and on the index when
    at most a page of visible posts is dated at or after it. *)
Lemma visible_listed request e s p k c :
  unique_slugs s →
  0 < Settings.POSTS_BY_PAGE (settings e) →
  p ∈ visible_posts s (clock e) →
  Post.category p = Some k →
  category_by_pk s k = Some c →
  (∃ resp l, category_posts request (Category.slug c) e s = (s, inr resp)
           ∧ context_data resp !! "post_list" = Some (ShownPosts l) ∧ p ∈ l)
  ∧ (Z.of_nat (length (base.filter (λ q, Post.pub_date p ≤ Post.pub_date q)
                         (visible_posts s (clock e))))
       ≤ Settings.POSTS_BY_PAGE (settings e) →
     ∃ resp l, index request e s = (s, inr resp)
             ∧ context_data resp !! "post_list" = Some (ShownPosts l) ∧ p ∈ l).
Proof.
  intros Huniq Hpage Hvis Hk Hc.
  apply category_by_pk_Some in Hc as Hcin. destruct Hcin as [Hcin _].
  apply elem_of_visible_posts in Hvis as Hparts.
  destruct Hparts as (Hp & Hflag & Hdate & k' & c' & Hk' & Hc' & Hpub).
  assert (k' = k) as -> by congruence. assert (c' = c) as -> by congruence.
  split.
  - do 2 eexists. split; [by apply category_posts_run|]. simpl.
    split; [done|].
    apply elem_of_category_page. split_and!; try done. by exists k, c.
  - intros Hcount. do 2 eexists. split; [apply index_run; lia|]. simpl.
    split; [apply lookup_singleton_eq|].
    apply descending_in_page; [apply visible_posts_descending | done | lia].
Qed.

Lemma with_pub_date_visible s t pk d p :
  p ∈ posts s → Post.id p = pk → Post.is_published p = true →
  published_category s p → d < t →
  with_pub_date d p ∈ visible_posts (set_pub_date pk d s) t.
Proof.
  intros Hp Hid Hflag (k & c & Hk & Hc & Hpub) Hd.
  apply elem_of_visible_posts. split_and!; try done.
  - simpl. apply list_elem_of_fmap. exists p. split; [|done]. by rewrite decide_True.
  - by exists k, c.
Qed.

(** C6, as the code has it. Take a published post [p] of a published
    category [c], in a store with unique slugs and a positive page size, and
    a clock reading [t1] at which the post's [pub_date] has not passed: the
    post is then in neither the index nor the page of its category.  Let the
    date cross the clock, either because a later call reads [t2] after the
    date, or because the date is set to some [d] before [t1] while nothing
    else changes.  The post is then among the published posts and on the page
    of its category, and it is on the index when at most [POSTS_BY_PAGE]
    visible posts are dated at or after it; the theorem promises nothing for
    the index beyond that. *)
Theorem pub_date_elapses request cfg t1 t2 d s p k c :
  unique_slugs s →
  0 < Settings.POSTS_BY_PAGE cfg →
  p ∈ posts s →
  Post.is_published p = true →
  Post.category p = Some k →
  category_by_pk s k = Some c →
  Category.is_published c = true →
  (t1 ≤ Post.pub_date p ∧ Post.pub_date p < t2) →
  d < t1 →
  ((p ∉ visible_posts s t1)
   ∧ (∃ resp l, index request {| clock := t1; settings := cfg |} s = (s, inr resp)
              ∧ context_data resp !! "post_list" = Some (ShownPosts l) ∧ p ∉ l)
   ∧ (∃ resp l, category_posts request (Category.slug c)
                  {| clock := t1; settings := cfg |} s = (s, inr resp)
              ∧ context_data resp !! "post_list" = Some (ShownPosts l) ∧ p ∉ l))
  ∧ (p ∈ visible_posts s t2
     ∧ (∃ resp l, category_posts request (Category.slug c)
                    {| clock := t2; settings := cfg |} s = (s, inr resp)
                ∧ context_data resp !! "post_list" = Some (ShownPosts l) ∧ p ∈ l)
     ∧ (Z.of_nat (length (base.filter (λ q, Post.pub_date p ≤ Post.pub_date q)
                            (visible_posts s t2)))
          ≤ Settings.POSTS_BY_PAGE cfg →
        ∃ resp l, index request {| clock := t2; settings := cfg |} s = (s, inr resp)
                ∧ context_data resp !! "post_list" = Some (ShownPosts l) ∧ p ∈ l))
  ∧ (with_pub_date d p ∈ visible_posts (set_pub_date (Post.id p) d s) t1
     ∧ (∃ resp l, category_posts request (Category.slug c)
                    {| clock := t1; settings := cfg |} (set_pub_date (Post.id p) d s)
                  = (set_pub_date (Post.id p) d s, inr resp)
                ∧ context_data resp !! "post_list" = Some (ShownPosts l)
                ∧ with_pub_date d p ∈ l)
     ∧ (Z.of_nat (length (base.filter (λ q, d ≤ Post.pub_date q)
                            (visible_posts (set_pub_date (Post.id p) d s) t1)))
          ≤ Settings.POSTS_BY_PAGE cfg →
        ∃ resp l, index request {| clock := t1; settings := cfg |}
                    (set_pub_date (Post.id p) d s)
                  = (set_pub_date (Post.id p) d s, inr resp)
                ∧ context_data resp !! "post_list" = Some (ShownPosts l)
                ∧ with_pub_date d p ∈ l)).
Proof.
  intros Huniq Hpage Hp Hflag Hk Hc Hpub [Hnotyet Hpast] Hd.
  apply category_by_pk_Some in Hc as Hcin. destruct Hcin as [Hcin _].
  assert (published_category s p) as Hcat by by exists k, c.
  assert (p ∉ visible_posts s t1) as Habsent.
  { rewrite elem_of_visible_posts. intros (_ & _ & Hlt & _). lia. }
  assert (p ∈ visible_posts s t2) as Hpresent by by apply elem_of_visible_posts.
  pose proof (with_pub_date_visible s t1 (Post.id p) d p Hp eq_refl Hflag Hcat Hd)
    as Hedited.
  split_and!; try done.
  - by apply (not_visible_unlisted request {| clock := t1; settings := cfg |} s p c).
  - by apply (not_visible_unlisted request {| clock := t1; settings := cfg |} s p c).
  - by apply (visible_listed request {| clock := t2; settings := cfg |} s p k c).
  - by apply (visible_listed request {| clock := t2; settings := cfg |} s p k c).
  - by apply (visible_listed request {| clock := t1; settings := cfg |}
                (set_pub_date (Post.id p) d s) (with_pub_date d p) k c).
  - by apply (visible_listed request {| clock := t1; settings := cfg |}
                (set_pub_date (Post.id p) d s) (with_pub_date d p) k c).
Qed.

(** The theorem at work: post 1 is dated 5; the clock moves from 3 to 10. *)
Lemma pub_date_elapses_sample :
  (Sample.post 1 5 (Some 1) true
     ∉ visible_posts
         (Sample.store [Sample.post 1 5 (Some 1) true; Sample.post 2 7 (Some 1) true]) 3)
  ∧ ∃ resp l,
      index Sample.request (Sample.env 10 5)
        (Sample.store [Sample.post 1 5 (Some 1) true; Sample.post 2 7 (Some 1) true])
      = (Sample.store [Sample.post 1 5 (Some 1) true; Sample.post 2 7 (Some 1) true],
         inr resp)
      ∧ context_data resp !! "post_list" = Some (ShownPosts l)
      ∧ Sample.post 1 5 (Some 1) true ∈ l.
Proof.
  destruct (pub_date_elapses Sample.request (settings (Sample.env 10 5)) 3 10 2
              (Sample.store [Sample.post 1 5 (Some 1) true; Sample.post 2 7 (Some 1) true])
              (Sample.post 1 5 (Some 1) true) 1 Sample.news)
    as ([Habsent _] & (_ & _ & Hindex) & _).
  - unfold unique_slugs. simpl. apply (bool_decide_unpack _). by vm_compute.
  - simpl. lia.
  - simpl. left.
  - reflexivity.
  - reflexivity.
  - reflexivity.
  - reflexivity.
  - simpl. lia.
  - lia.
  - split; [exact Habsent|]. apply Hindex. by vm_compute.
Defined.

(** C6 as stated fails for the index: with a page of one post, a post whose
    date has passed stays off the index while a newer visible post holds the
    page. *)
Lemma older_post_stays_off_index :
  let p := Sample.post 1 5 (Some 1) true in
  let s := Sample.store [p; Sample.post 2 7 (Some 1) true] in
  p ∈ posts s ∧ Post.is_published p = true ∧ published_category s p
  ∧ 3 ≤ Post.pub_date p < 10
  ∧ (∃ resp l, index Sample.request (Sample.env 3 1) s = (s, inr resp)
             ∧ context_data resp !! "post_list" = Some (ShownPosts l) ∧ p ∉ l)
  ∧ (∃ resp l, index Sample.request (Sample.env 10 1) s = (s, inr resp)
             ∧ context_data resp !! "post_list" = Some (ShownPosts l) ∧ p ∉ l).
Proof.
  simpl. split_and!.
  - left.
  - done.
  - by exists 1, Sample.news.
  - lia.
  - lia.
  - do 2 eexists. split; [apply index_run; simpl; lia|]. simpl.
    split; [apply lookup_singleton_eq|].
    vm_compute. apply not_elem_of_nil.
  - do 2 eexists. split; [apply index_run; simpl; lia|]. simpl.
    split; [apply lookup_singleton_eq|].
    vm_compute. intros Hin. apply list_elem_of_singleton in Hin. discriminate Hin.
Qed.

(** ** Default orders of the three models *)

Lemma filter_Forall_id {A} (P : A → Prop) `{∀ x, Decision (P x)} (l : list A) :
  Forall P l → base.filter P l = l.
Proof.
  induction 1 as [|x l Hx Hl IH]; [done|].
  rewrite filter_cons_True by done. by rewrite IH.
Qed.

Lemma evaluate_all_Permutation {R} `{Model R} s :
  QuerySet.evaluate s (QuerySet.all (QuerySet.Manager_get_queryset (R := R)))
  ≡ₚ table s.
Proof.
  rewrite evaluate_Permutation. rewrite filter_Forall_id; [done|].
  apply Forall_forall. intros r _. unfold QuerySet.selects. simpl. constructor.
Qed.

(** C7. The Meta of [Category] and of [Location] inherit
    [ordering = ('created_at',)] from the abstract base, and the Meta of
    [Post] replaces it by [('-pub_date',)].  Accordingly the plain listing
    of a model (its manager's [all()]) holds the rows of the table ordered
    by [created_at] ascending for categories and locations, and by
    [pub_date] descending for posts, as is the listing of published posts. *)
Theorem default_orderings s t :
  Meta_ordering BaseBlogMeta.Meta = ["created_at"]
  ∧ Meta_ordering Category.Meta = ["created_at"]
  ∧ Meta_ordering Location.Meta = ["created_at"]
  ∧ Meta_ordering Post.Meta = ["-pub_date"]
  ∧ (QuerySet.evaluate s (QuerySet.all (QuerySet.Manager_get_queryset (R := Category.t)))
       ≡ₚ categories s
     ∧ StronglySorted (λ a b, Category.created_at a ≤ Category.created_at b)
         (QuerySet.evaluate s
            (QuerySet.all (QuerySet.Manager_get_queryset (R := Category.t)))))
  ∧ (QuerySet.evaluate s (QuerySet.all (QuerySet.Manager_get_queryset (R := Location.t)))
       ≡ₚ locations s
     ∧ StronglySorted (λ a b, Location.created_at a ≤ Location.created_at b)
         (QuerySet.evaluate s
            (QuerySet.all (QuerySet.Manager_get_queryset (R := Location.t)))))
  ∧ (QuerySet.evaluate s (QuerySet.all (QuerySet.Manager_get_queryset (R := Post.t)))
       ≡ₚ posts s
     ∧ pub_date_descending
         (QuerySet.evaluate s
            (QuerySet.all (QuerySet.Manager_get_queryset (R := Post.t)))))
  ∧ pub_date_descending (visible_posts s t).
Proof.
  split_and!; try reflexivity.
  - exact (evaluate_all_Permutation (R := Category.t) s).
  - eapply StronglySorted_impl; [|apply evaluate_StronglySorted].
    intros a b. apply Category_ordering_le.
  - exact (evaluate_all_Permutation (R := Location.t) s).
  - eapply StronglySorted_impl; [|apply evaluate_StronglySorted].
    intros a b. apply Location_ordering_le.
  - exact (evaluate_all_Permutation (R := Post.t) s).
  - eapply StronglySorted_impl; [|apply evaluate_StronglySorted].
    intros a b. apply Post_ordering_le.
  - apply visible_posts_descending.
Qed.

(** ** What the views hand to the renderer *)

(** C8. Each view passes to [render] the context its dictionary literal
    names, and nothing else.  [index], which answers for every non-negative
    page size, passes ["post_list"] alone, holding the sliced query of
    published posts.  [post_detail], which answers for the id of a published
    post (ids unique and within the column's range), passes ["post"] alone,
    holding that post.  [category_posts], which answers for the slug of a
    published category (slugs unique), passes ["category"] and
    ["post_list"], holding that category and the query of its published
    posts.  Whenever a view answers at all, its context has exactly these
    keys and its template is the one the view names. *)
Theorem views_context request post_id category_slug e s :
  (0 ≤ Settings.POSTS_BY_PAGE (settings e) →
     ∃ resp,
       index request e s = (s, inr resp)
       ∧ template_name resp = "blog/index.html"
       ∧ context resp
         = {[ "post_list" :=
                PostSlice
                  {| QuerySet.query := PublishedPostsManager.published_at (clock e);
                     QuerySet.stop :=
                       Z.to_nat (Settings.POSTS_BY_PAGE (settings e)) |} ]})
  ∧ (∀ p, unique_post_ids s → int64 (Post.id p) → p ∈ visible_posts s (clock e) →
       ∃ resp,
         post_detail request (Post.id p) e s = (s, inr resp)
         ∧ template_name resp = "blog/detail.html"
         ∧ context resp = {[ "post" := APost p ]})
  ∧ (∀ c, unique_slugs s → c ∈ categories s → Category.is_published c = true →
       ∃ resp,
         category_posts request (Category.slug c) e s = (s, inr resp)
         ∧ template_name resp = "blog/category.html"
         ∧ context resp
           = {[ "category" := ACategory c;
                "post_list" :=
                  PostQuery
                    (QuerySet.filter (R := Post.t) [category__slug (Category.slug c)]
                       (PublishedPostsManager.published_at (clock e))) ]})
  ∧ (∀ s' resp, index request e s = (s', inr resp) →
     template_name resp = "blog/index.html"
     ∧ dom (context resp) = ({[ "post_list" ]} : gset string)
     ∧ ∃ q, context resp = {[ "post_list" := PostSlice q ]})
  ∧ (∀ s' resp, post_detail request post_id e s = (s', inr resp) →
       template_name resp = "blog/detail.html"
       ∧ dom (context resp) = ({[ "post" ]} : gset string)
       ∧ ∃ p, context resp = {[ "post" := APost p ]})
  ∧ (∀ s' resp, category_posts request category_slug e s = (s', inr resp) →
       template_name resp = "blog/category.html"
       ∧ dom (context resp) = ({[ "category"; "post_list" ]} : gset string)
       ∧ ∃ c q, context resp
                = {[ "category" := ACategory c; "post_list" := PostQuery q ]}).
Proof.
  split_and!.
  - intros Hpage. eexists. split; [by apply index_run|]. done.
  - intros p Huniq Hfit Hvis. eexists.
    split; [by apply post_detail_found|]. done.
  - intros c Huniq Hc Hpub. eexists.
    split; [by apply category_posts_run|]. done.
  - intros s' resp Hrun.
    destruct (decide (Settings.POSTS_BY_PAGE (settings e) < 0)) as [Hneg|Hpos].
    + rewrite index_negative_page in Hrun by done. discriminate Hrun.
    + rewrite index_run in Hrun by lia. injection Hrun as _ <-. simpl.
      split_and!; [done | by rewrite dom_singleton_L | by eexists].
  - intros s' resp Hrun.
    destruct (decide (int64 post_id)) as [Hfit|Hfit];
      [|by rewrite post_detail_overflow in Hrun].
    rewrite post_detail_cases in Hrun by done.
    destruct (QuerySet.evaluate s _) as [|p [|p' rows]]; try discriminate Hrun.
    injection Hrun as _ <-. simpl.
    split_and!; [done | by rewrite dom_singleton_L | by eexists].
  - intros s' resp Hrun.
    rewrite category_posts_cases in Hrun.
    destruct (QuerySet.evaluate s _) as [|c [|c' rows]]; try discriminate Hrun.
    injection Hrun as _ <-. simpl.
    split_and!; [done | by rewrite dom_insert_L, dom_singleton_L | by do 2 eexists].
Qed.

(** The theorem at work on the sample blog: the index, the page of post 1
    and the news page answer, each with its context. *)
Lemma views_context_sample :
  (∃ resp,
     index Sample.request (Sample.env 10 5)
       (Sample.store [Sample.post 1 5 (Some 1) true])
     = (Sample.store [Sample.post 1 5 (Some 1) true], inr resp)
     ∧ template_name resp = "blog/index.html"
     ∧ context resp
       = {[ "post_list" :=
              PostSlice {| QuerySet.query := PublishedPostsManager.published_at 10;
                           QuerySet.stop := 5 |} ]})
  ∧ (∃ resp,
       post_detail Sample.request 1 (Sample.env 10 5)
         (Sample.store [Sample.post 1 5 (Some 1) true])
       = (Sample.store [Sample.post 1 5 (Some 1) true], inr resp)
       ∧ template_name resp = "blog/detail.html"
       ∧ context resp = {[ "post" := APost (Sample.post 1 5 (Some 1) true) ]})
  ∧ (∃ resp,
       category_posts Sample.request "news" (Sample.env 10 5)
         (Sample.store [Sample.post 1 5 (Some 1) true])
       = (Sample.store [Sample.post 1 5 (Some 1) true], inr resp)
       ∧ template_name resp = "blog/category.html"
       ∧ context resp
         = {[ "category" := ACategory Sample.news;
              "post_list" :=
                PostQuery
                  (QuerySet.filter (R := Post.t) [category__slug "news"]
                     (PublishedPostsManager.published_at 10)) ]}).
Proof.
  destruct (views_context Sample.request 1 "news" (Sample.env 10 5)
              (Sample.store [Sample.post 1 5 (Some 1) true]))
    as (Hindex & Hdetail & Hcategory & _).
  split_and!.
  - apply Hindex. simpl. lia.
  - apply (Hdetail (Sample.post 1 5 (Some 1) true)).
    + unfold unique_post_ids. simpl. apply (bool_decide_unpack _). by vm_compute.
    + unfold int64. simpl. lia.
    + vm_compute. left.
  - apply (Hcategory Sample.news).
    + unfold unique_slugs. simpl. apply (bool_decide_unpack _). by vm_compute.
    + simpl. left.
    + reflexivity.
Defined.

(** ** Field defaults *)

(** C10. [is_published] is declared with [default=True]: a category, a
    location or a post constructed without an [is_published] argument has
    the flag set, and one constructed with the argument keeps the value
    given.  Such a post, once in the posts table, is among the published
    posts exactly when its date has passed and its category is published. *)
Theorem is_published_defaults_to_true :
  bool_default BaseBlogMeta.is_published_field = Some true
  ∧ (∀ pk now title description slug,
       Category.is_published <$> Category.init pk now title description slug None
       = Some true)
  ∧ (∀ pk now name,
       Location.is_published <$> Location.init pk now name None = Some true)
  ∧ (∀ pk now title text pub_date author location category,
       Post.is_published
         <$> Post.init pk now title text pub_date author location category None
       = Some true)
  ∧ (∀ b pk now title description slug,
       Category.is_published <$> Category.init pk now title description slug (Some b)
       = Some b)
  ∧ (∀ b pk now name,
       Location.is_published <$> Location.init pk now name (Some b) = Some b)
  ∧ (∀ b pk now title text pub_date author location category,
       Post.is_published
         <$> Post.init pk now title text pub_date author location category (Some b)
       = Some b)
  ∧ (∀ s t pk now title text pub_date author location category p,
       Post.init pk now title text pub_date author location category None = Some p →
       p ∈ posts s →
       (p ∈ visible_posts s t ↔ Post.pub_date p < t ∧ published_category s p)).
Proof.
  split_and!; try done.
  intros s t pk now title text pub_date author location category p Hinit Hp.
  injection Hinit as <-. rewrite elem_of_visible_posts. simpl.
  unfold Post.is_published. simpl. tauto.
Qed.

(** The theorem at work: a post created without the flag, dated in the past,
    filed under the published sample category. *)
Lemma new_post_is_visible_sample :
  ∃ p, Post.init 7 2 "New" "Text" 5 1 None (Some 1) None = Some p
       ∧ p ∈ visible_posts (Sample.store [p]) 10.
Proof.
  destruct is_published_defaults_to_true as (_ & _ & _ & _ & _ & _ & _ & Hvisible).
  eexists. split; [reflexivity|].
  apply (Hvisible _ 10 7 2 "New" "Text" 5 1 None (Some 1) _ eq_refl).
  - simpl. left.
  - split; [simpl; lia|]. by exists 1, Sample.news.
Defined.

(** * Further properties *)

(** ** String representations *)

Lemma append_assoc (a b c : string) : (a +:+ b) +:+ c = a +:+ (b +:+ c).
Proof.
  induction a as [|x a IH]; [done|].
  change (String x ((a +:+ b) +:+ c) = String x (a +:+ (b +:+ c))).
  by rewrite IH.
Qed.

Lemma join_app (cs1 cs2 : list string) : join (cs1 ++ cs2) = join cs1 +:+ join cs2.
Proof.
  induction cs1 as [|c cs1 IH]; [done|].
  change (join ((c :: cs1) ++ cs2)) with (c +:+ join (cs1 ++ cs2)).
  change (join (c :: cs1)) with (c +:+ join cs1).
  by rewrite IH, append_assoc.
Qed.

Lemma characters_nil (s : string) : characters s = [] → s = "".
Proof.
  destruct s as [|a rest]; [done|]. simpl.
  destruct (characters rest); [done|]. by destruct (continues rest).
Qed.

Lemma characters_head (a : ascii) (rest : string) :
  ∃ t cs, characters (String a rest) = String a t :: cs.
Proof.
  simpl. destruct (characters rest) as [|c cs]; [by eexists _, _|].
  destruct (continues rest); by eexists _, _.
Qed.

Lemma join_characters (s : string) : join (characters s) = s.
Proof.
  induction s as [|a rest IH]; [done|].
  simpl. destruct (characters rest) as [|c cs] eqn:E.
  - apply characters_nil in E as ->. done.
  - change (join (c :: cs)) with (c +:+ join cs) in IH.
    destruct (continues rest).
    + change (join (String a c :: cs)) with (String a (c +:+ join cs)). by rewrite IH.
    + change (join (String a "" :: c :: cs)) with (String a (c +:+ join cs)).
      by rewrite IH.
Qed.

Lemma characters_one (t : string) (a : ascii) (R : string) :
  all_continuation t = true →
  continues R = false →
  characters (String a (t +:+ R)) = String a t :: characters R.
Proof.
  revert a. induction t as [|b t IH]; intros a Ht HR.
  - change ("" +:+ R) with R. simpl. rewrite HR.
    destruct (characters R) as [|c cs] eqn:E; done.
  - simpl in Ht. apply andb_true_iff in Ht as [Hb Ht].
    change (String b t +:+ R) with (String b (t +:+ R)).
    specialize (IH b Ht HR).
    change (characters (String a (String b (t +:+ R))))
      with (match characters (String b (t +:+ R)) with
            | c :: cs =>
                if continues (String b (t +:+ R)) then String a c :: cs
                else String a "" :: c :: cs
            | [] => [String a ""]
            end).
    rewrite IH. simpl. by rewrite Hb.
Qed.

Lemma characters_join (cs : list string) : well_split cs → characters (join cs) = cs.
Proof.
  induction cs as [|c cs IH]; [done|].
  intros (Hc & Hnext & Hcs). specialize (IH Hcs).
  destruct c as [|a t]; [done|].
  change (join (String a t :: cs)) with (String a (t +:+ join cs)).
  rewrite characters_one; [by rewrite IH | done |].
  destruct cs as [|c' cs']; [done|].
  destruct Hnext as [Hne Hc']. destruct c' as [|b t']; [done|]. exact Hc'.
Qed.

Lemma characters_well_split (s : string) : well_split (characters s).
Proof.
  induction s as [|a rest IH]; [done|].
  simpl. destruct (characters rest) as [|c cs] eqn:E; [done|].
  destruct rest as [|b rest']; [done|].
  destruct (characters_head b rest') as (t & cs' & E').
  rewrite E in E'. injection E' as -> ->.
  destruct IH as (Hc & Hnext & Hcs).
  simpl continues. destruct (is_continuation b) eqn:Hb.
  - split_and!; try done. simpl. simpl in Hc. by rewrite Hb, Hc.
  - split_and!; try done.
Qed.

Lemma well_split_take (n : nat) (cs : list string) :
  well_split cs → well_split (take n cs).
Proof.
  revert n. induction cs as [|c cs IH]; intros [|n]; try done.
  intros (Hc & Hnext & Hcs). simpl. split_and!; [done| |by apply IH].
  destruct cs as [|c' cs']; [by destruct n|]. by destruct n.
Qed.

Lemma join_take_truncation (full : string) (n : nat) :
  truncation full n (join (take n (characters full))).
Proof.
  split.
  - apply characters_join, well_split_take, characters_well_split.
  - exists (join (drop n (characters full))).
    by rewrite <-join_app, take_drop, join_characters.
Qed.

Lemma str_slice_stop_nonneg (full : string) (k : Z) :
  0 ≤ k →
  truncation full (Z.to_nat k) (str_slice_stop full k)
  ∧ (Z.of_nat (length (characters full)) ≤ k → str_slice_stop full k = full).
Proof.
  intros Hk. unfold str_slice_stop. simpl. case_decide; [lia|].
  destruct (decide (Z.of_nat (length (characters full)) ≤ k)) as [Hfit|Hcut].
  - rewrite !take_ge by lia. split; [|by rewrite join_characters].
    rewrite <-(take_ge (characters full) (Z.to_nat k)) at 1 by lia.
    apply join_take_truncation.
  - replace (Z.min k (Z.of_nat (length (characters full)))) with k by lia.
    split; [apply join_take_truncation | lia].
Qed.

Lemma str_slice_stop_negative (full : string) (k : Z) :
  k < 0 →
  truncation full (length (characters full) - Z.to_nat (- k))
    (str_slice_stop full k).
Proof.
  intros Hk. unfold str_slice_stop. simpl. case_decide; [|lia].
  replace (Z.to_nat (Z.max 0 (Z.of_nat (length (characters full)) + k)))
    with (length (characters full) - Z.to_nat (- k))%nat by lia.
  apply join_take_truncation.
Qed.

(** X1. With a non-negative [REPRESENTATION_LENGTH], the [__str__] of a
    category, a location and a post is the beginning of its title (name):
    its first [REPRESENTATION_LENGTH] characters, counted as characters and
    not as bytes of the encoding; a title of no more characters than that
    is returned whole.  The methods never fail and leave the store alone. *)
Theorem str_truncates_title e s (c : Category.t) (l : Location.t) (p : Post.t) :
  0 ≤ Settings.REPRESENTATION_LENGTH (settings e) →
  ∃ rc rl rp,
    Category__str__ c e s = (s, inr rc)
    ∧ Location__str__ l e s = (s, inr rl)
    ∧ Post__str__ p e s = (s, inr rp)
    ∧ truncation (Category.title c)
        (Z.to_nat (Settings.REPRESENTATION_LENGTH (settings e))) rc
    ∧ truncation (Location.name l)
        (Z.to_nat (Settings.REPRESENTATION_LENGTH (settings e))) rl
    ∧ truncation (Post.title p)
        (Z.to_nat (Settings.REPRESENTATION_LENGTH (settings e))) rp
    ∧ (Z.of_nat (length (characters (Category.title c)))
         ≤ Settings.REPRESENTATION_LENGTH (settings e) → rc = Category.title c)
    ∧ (Z.of_nat (length (characters (Location.name l)))
         ≤ Settings.REPRESENTATION_LENGTH (settings e) → rl = Location.name l)
    ∧ (Z.of_nat (length (characters (Post.title p)))
         ≤ Settings.REPRESENTATION_LENGTH (settings e) → rp = Post.title p).
Proof.
  intros Hk. do 3 eexists. split_and!; try reflexivity;
    by apply str_slice_stop_nonneg.
Qed.

(** The theorem at work: a Cyrillic title of six characters (twelve bytes)
    under a limit of three. *)
Lemma str_truncates_title_sample :
  ∃ rc, Category__str__
          {| Category.id := 3; Category.base := Sample.base true 0;
             Category.title := "Привет"; Category.description := "";
             Category.slug := "hello" |}
          {| clock := 0;
             settings := {| Settings.POSTS_BY_PAGE := 5; Settings.MAX_FIELD_LENGTH := 256;
                            Settings.REPRESENTATION_LENGTH := 3 |} |}
          (Sample.store [])
        = (Sample.store [], inr rc)
        ∧ truncation "Привет" 3 rc
        ∧ rc = "При".
Proof.
  destruct (str_truncates_title
              {| clock := 0;
                 settings := {| Settings.POSTS_BY_PAGE := 5; Settings.MAX_FIELD_LENGTH := 256;
                                Settings.REPRESENTATION_LENGTH := 3 |} |}
              (Sample.store [])
              {| Category.id := 3; Category.base := Sample.base true 0;
                 Category.title := "Привет"; Category.description := "";
                 Category.slug := "hello" |}
              {| Location.id := 1; Location.base := Sample.base true 0; Location.name := "Here" |}
              (Sample.post 1 5 None true))
    as (rc & rl & rp & Hc & _ & _ & Htrunc & _).
  - simpl. lia.
  - exists rc. split; [exact Hc|]. split; [exact Htrunc|].
    injection Hc as <-. by vm_compute.
Defined.

(** X2. With a negative [REPRESENTATION_LENGTH] the slice counts from the
    end: [__str__] drops the last [-REPRESENTATION_LENGTH] characters of the
    title (name), counted as characters, and returns the empty string when
    the title has no more characters than that. *)
Theorem str_negative_length_drops_tail e s (c : Category.t) (l : Location.t)
    (p : Post.t) :
  Settings.REPRESENTATION_LENGTH (settings e) < 0 →
  ∃ rc rl rp,
    Category__str__ c e s = (s, inr rc)
    ∧ Location__str__ l e s = (s, inr rl)
    ∧ Post__str__ p e s = (s, inr rp)
    ∧ truncation (Category.title c)
        (length (characters (Category.title c))
         - Z.to_nat (- Settings.REPRESENTATION_LENGTH (settings e))) rc
    ∧ truncation (Location.name l)
        (length (characters (Location.name l))
         - Z.to_nat (- Settings.REPRESENTATION_LENGTH (settings e))) rl
    ∧ truncation (Post.title p)
        (length (characters (Post.title p))
         - Z.to_nat (- Settings.REPRESENTATION_LENGTH (settings e))) rp.
Proof.
  intros Hk. do 3 eexists. split_and!; try reflexivity;
    by apply str_slice_stop_negative.
Qed.

(** The theorem at work: a limit of minus one drops the last letter of a
    Cyrillic title. *)
Lemma str_negative_length_sample :
  ∃ rc, Category__str__
          {| Category.id := 3; Category.base := Sample.base true 0;
             Category.title := "Привет"; Category.description := "";
             Category.slug := "hello" |}
          {| clock := 0;
             settings := {| Settings.POSTS_BY_PAGE := 5; Settings.MAX_FIELD_LENGTH := 256;
                            Settings.REPRESENTATION_LENGTH := -1 |} |}
          (Sample.store [])
        = (Sample.store [], inr rc)
        ∧ truncation "Привет" 5 rc
        ∧ rc = "Приве".
Proof.
  destruct (str_negative_length_drops_tail
              {| clock := 0;
                 settings := {| Settings.POSTS_BY_PAGE := 5; Settings.MAX_FIELD_LENGTH := 256;
                                Settings.REPRESENTATION_LENGTH := -1 |} |}
              (Sample.store [])
              {| Category.id := 3; Category.base := Sample.base true 0;
                 Category.title := "Привет"; Category.description := "";
                 Category.slug := "hello" |}
              {| Location.id := 1; Location.base := Sample.base true 0; Location.name := "Here" |}
              (Sample.post 1 5 None true))
    as (rc & rl & rp & Hc & _ & _ & Htrunc & _).
  - simpl. lia.
  - exists rc. split; [exact Hc|]. split; [exact Htrunc|].
    injection Hc as <-. by vm_compute.
Defined.

(** ** What the pages show *)

Lemma index_shown request e s :
  shown_posts (index request e s) =
    if decide (Settings.POSTS_BY_PAGE (settings e) < 0) then None
    else Some (take (Z.to_nat (Settings.POSTS_BY_PAGE (settings e)))
                 (visible_posts s (clock e))).
Proof.
  case_decide as Hk.
  - by rewrite index_negative_page.
  - rewrite index_run by lia. unfold shown_posts. simpl.
    by rewrite lookup_singleton_eq.
Qed.

Lemma index_shown_Some request e s l :
  shown_posts (index request e s) = Some l →
  0 ≤ Settings.POSTS_BY_PAGE (settings e)
  ∧ l = take (Z.to_nat (Settings.POSTS_BY_PAGE (settings e))) (visible_posts s (clock e)).
Proof.
  rewrite index_shown. case_decide; [done|]. intros [= <-]. split; [lia|done].
Qed.

Lemma category_posts_shown request v e s l :
  shown_posts (category_posts request v e s) = Some l →
  l = QuerySet.evaluate s
        (QuerySet.filter (R := Post.t) [category__slug v]
           (PublishedPostsManager.published_at (clock e))).
Proof.
  rewrite category_posts_cases.
  destruct (QuerySet.evaluate s _) as [|c [|c' rows]]; try done.
  unfold shown_posts. simpl. by intros [= <-].
Qed.

Lemma category_posts_shown_category request v e s c :
  shown_category (category_posts request v e s) = Some c →
  c ∈ categories s ∧ Category.slug c = v ∧ Category.is_published c = true
  ∧ shown_posts (category_posts request v e s)
    = Some (QuerySet.evaluate s
              (QuerySet.filter (R := Post.t) [category__slug v]
                 (PublishedPostsManager.published_at (clock e)))).
Proof.
  rewrite category_posts_cases.
  destruct (QuerySet.evaluate s _) as [|c1 [|c2 rows]] eqn:E; try done.
  unfold shown_category, shown_posts. simpl. intros [= <-].
  assert (c1 ∈ categories s ∧ Category.slug c1 = v ∧ Category.is_published c1 = true)
    as (? & ? & ?).
  { apply elem_of_category_query. rewrite E. left. }
  done.
Qed.

Lemma post_detail_shown_fits request k e s p :
  shown_post (post_detail request k e s) = Some p → int64 k.
Proof.
  intros Hshown. destruct (decide (int64 k)) as [Hk|Hk]; [done|].
  by rewrite post_detail_overflow in Hshown.
Qed.

Lemma post_detail_shown request k e s p :
  unique_post_ids s →
  int64 k →
  shown_post (post_detail request k e s) = Some p ↔
    p ∈ visible_posts s (clock e) ∧ Post.id p = k.
Proof.
  intros Huniq Hk. split.
  - rewrite post_detail_cases by done.
    destruct (QuerySet.evaluate s _) as [|p1 [|p2 rows]] eqn:E; try done.
    unfold shown_post. simpl. rewrite lookup_singleton_eq. intros [= <-].
    apply elem_of_post_query. rewrite E. left.
  - intros [Hvis <-]. rewrite post_detail_found by done.
    unfold shown_post. simpl. by rewrite lookup_singleton_eq.
Qed.

Lemma index_raised request e s x :
  raised (index request e s) = Some x →
  x = AssertionError ∧ Settings.POSTS_BY_PAGE (settings e) < 0.
Proof.
  destruct (decide (Settings.POSTS_BY_PAGE (settings e) < 0)) as [Hneg|Hpos].
  - rewrite index_negative_page by done. unfold raised. simpl. by intros [= <-].
  - by rewrite index_run by lia.
Qed.

(** X4. The index keeps the newest: a visible post that is not on the index
    is dated at or before every post that is. *)
Theorem index_keeps_newest request e s l p q :
  shown_posts (index request e s) = Some l →
  p ∈ l →
  q ∈ visible_posts s (clock e) →
  q ∉ l →
  Post.pub_date q ≤ Post.pub_date p.
Proof.
  intros [_ ->]%index_shown_Some Hp Hq Hnot.
  pose proof (visible_posts_descending s (clock e)) as Hsorted.
  unfold pub_date_descending in Hsorted.
  rewrite <-(take_drop (Z.to_nat (Settings.POSTS_BY_PAGE (settings e)))
               (visible_posts s (clock e))) in Hsorted, Hq.
  apply elem_of_app in Hq as [Hq|Hq]; [done|].
  by apply (StronglySorted_app_1_elem_of _ _ _ p q Hsorted).
Qed.

(** The theorem at work: a page of one post, two visible posts. *)
Lemma index_keeps_newest_sample :
  Post.pub_date (Sample.post 1 5 (Some 1) true)
  ≤ Post.pub_date (Sample.post 2 7 (Some 1) true).
Proof.
  apply (index_keeps_newest Sample.request (Sample.env 10 1)
           (Sample.store [Sample.post 1 5 (Some 1) true; Sample.post 2 7 (Some 1) true])
           [Sample.post 2 7 (Some 1) true]).
  - by vm_compute.
  - left.
  - vm_compute. right. left.
  - intros Hin. apply list_elem_of_singleton in Hin. discriminate Hin.
Defined.

(** X5. A larger page size extends the index: at the same clock reading and
    on the same store, the list shown for a page size is a prefix of the
    list shown for any larger one. *)
Theorem index_page_size_extends request e1 e2 s :
  clock e1 = clock e2 →
  0 ≤ Settings.POSTS_BY_PAGE (settings e1) →
  Settings.POSTS_BY_PAGE (settings e1) ≤ Settings.POSTS_BY_PAGE (settings e2) →
  ∃ l1 l2,
    shown_posts (index request e1 s) = Some l1
    ∧ shown_posts (index request e2 s) = Some l2
    ∧ l1 `prefix_of` l2.
Proof.
  intros Hclock Hn Hnm. do 2 eexists.
  rewrite !index_shown, !decide_False by lia. split_and!; try done.
  rewrite Hclock.
  replace (Z.to_nat (Settings.POSTS_BY_PAGE (settings e1)))
    with (Z.to_nat (Settings.POSTS_BY_PAGE (settings e1))
          `min` Z.to_nat (Settings.POSTS_BY_PAGE (settings e2)))%nat by lia.
  rewrite <-take_take. apply prefix_take.
Qed.

(** The theorem at work: page sizes 1 and 2 over the sample blog. *)
Lemma index_page_size_extends_sample :
  ∃ l1 l2,
    shown_posts (index Sample.request (Sample.env 10 1)
                   (Sample.store [Sample.post 1 5 (Some 1) true;
                                  Sample.post 2 7 (Some 1) true])) = Some l1
    ∧ shown_posts (index Sample.request (Sample.env 10 2)
                     (Sample.store [Sample.post 1 5 (Some 1) true;
                                    Sample.post 2 7 (Some 1) true])) = Some l2
    ∧ l1 `prefix_of` l2.
Proof.
  apply (index_page_size_extends Sample.request (Sample.env 10 1) (Sample.env 10 2)).
  - reflexivity.
  - simpl. lia.
  - simpl. lia.
Defined.

(** ** Time, duplicates, links *)

Lemma visible_posts_mono s t1 t2 p :
  t1 ≤ t2 → p ∈ visible_posts s t1 → p ∈ visible_posts s t2.
Proof.
  rewrite !elem_of_visible_posts. intros Ht (Hp & Hflag & Hdate & Hcat).
  split_and!; try done. lia.
Qed.

(** X6. With the store fixed, what is public stays public as the clock
    advances: the published posts at an earlier reading are among those at a
    later one, a category page only gains posts, and (post ids being unique)
    a post page that opens keeps opening on the same post. *)
Theorem later_clock_shows_more request e1 e2 s :
  unique_post_ids s →
  clock e1 ≤ clock e2 →
  (∀ p, p ∈ visible_posts s (clock e1) → p ∈ visible_posts s (clock e2))
  ∧ (∀ k p, shown_post (post_detail request k e1 s) = Some p →
            shown_post (post_detail request k e2 s) = Some p)
  ∧ (∀ v l1, shown_posts (category_posts request v e1 s) = Some l1 →
       ∃ l2, shown_posts (category_posts request v e2 s) = Some l2
             ∧ ∀ p, p ∈ l1 → p ∈ l2).
Proof.
  intros Huniq Ht. split_and!.
  - intros p. by apply visible_posts_mono.
  - intros k p Hshown.
    pose proof (post_detail_shown_fits _ _ _ _ _ Hshown) as Hk.
    apply post_detail_shown in Hshown as [Hvis Hid]; [|done|done].
    apply post_detail_shown; [done|done|]. split; [|done].
    by apply (visible_posts_mono s (clock e1)).
  - intros v l1 Hl1. pose proof (category_posts_shown _ _ _ _ _ Hl1) as ->.
    revert Hl1. rewrite !category_posts_cases.
    destruct (QuerySet.evaluate s (QuerySet.filter _ (QuerySet.all _)))
      as [|c [|c' rows]]; try done.
    intros _. eexists. split; [unfold shown_posts; simpl; reflexivity|].
    intros p [Hvis Hslug]%elem_of_category_post_query.
    apply elem_of_category_post_query. split; [|done].
    by apply (visible_posts_mono s (clock e1)).
Qed.

(** The theorem at work: post 1 opens at clock 6 and still at clock 10. *)
Lemma later_clock_shows_more_sample :
  shown_post (post_detail Sample.request 1 (Sample.env 10 5)
                (Sample.store [Sample.post 1 5 (Some 1) true]))
  = Some (Sample.post 1 5 (Some 1) true).
Proof.
  refine (proj1 (proj2 (later_clock_shows_more Sample.request (Sample.env 6 5)
            (Sample.env 10 5) (Sample.store [Sample.post 1 5 (Some 1) true]) _ _))
            1 (Sample.post 1 5 (Some 1) true) _).
  - unfold unique_post_ids. simpl. apply (bool_decide_unpack _). by vm_compute.
  - simpl. lia.
  - by vm_compute.
Defined.

Lemma visible_posts_ids_NoDup s t :
  unique_post_ids s → NoDup (Post.id <$> visible_posts s t).
Proof.
  intros Huniq. unfold visible_posts. rewrite evaluate_Permutation.
  eapply sublist_NoDup; [exact Huniq|]. apply fmap_sublist, sublist_filter.
Qed.

Lemma category_page_ids_NoDup s t v :
  unique_post_ids s →
  NoDup (Post.id <$> QuerySet.evaluate s
                       (QuerySet.filter (R := Post.t) [category__slug v]
                          (PublishedPostsManager.published_at t))).
Proof.
  intros Huniq. rewrite evaluate_Permutation.
  eapply sublist_NoDup; [exact Huniq|]. apply fmap_sublist, sublist_filter.
Qed.

(** X7. When post ids are unique in the table, no list the views show holds
    a post twice: the ids on the index and on a category page are pairwise
    different. *)
Theorem listings_without_duplicates request v e s :
  unique_post_ids s →
  (∀ l, shown_posts (index request e s) = Some l → NoDup (Post.id <$> l))
  ∧ (∀ l, shown_posts (category_posts request v e s) = Some l →
          NoDup (Post.id <$> l)).
Proof.
  intros Huniq. split.
  - intros l [_ ->]%index_shown_Some. rewrite fmap_take.
    eapply sublist_NoDup; [by apply (visible_posts_ids_NoDup s (clock e))|].
    apply sublist_take.
  - intros l ->%category_posts_shown. by apply category_page_ids_NoDup.
Qed.

(** The theorem at work: the index of the sample blog. *)
Lemma listings_without_duplicates_sample :
  NoDup (Post.id <$> [Sample.post 2 7 (Some 1) true; Sample.post 1 5 (Some 1) true]).
Proof.
  refine (proj1 (listings_without_duplicates Sample.request "news" (Sample.env 10 5)
            (Sample.store [Sample.post 1 5 (Some 1) true; Sample.post 2 7 (Some 1) true])
            _) _ _).
  - unfold unique_post_ids. simpl. apply (bool_decide_unpack _). by vm_compute.
  - by vm_compute.
Defined.

(** X8. No dead links: when post ids are unique and fit the id column,
    every post listed on the index or on a category page opens with
    [post_detail] under its id, at the same clock reading, and the page
    shows that very post. *)
Theorem listed_posts_open request request' v e s :
  unique_post_ids s →
  post_ids_fit s →
  (∀ l p, shown_posts (index request e s) = Some l → p ∈ l →
          shown_post (post_detail request' (Post.id p) e s) = Some p)
  ∧ (∀ l p, shown_posts (category_posts request v e s) = Some l → p ∈ l →
            shown_post (post_detail request' (Post.id p) e s) = Some p).
Proof.
  intros Huniq Hfit.
  assert (∀ p, p ∈ visible_posts s (clock e) →
               shown_post (post_detail request' (Post.id p) e s) = Some p) as Hopen.
  { intros p Hvis. apply post_detail_shown; [done| |done].
    unfold post_ids_fit in Hfit. rewrite Forall_forall in Hfit. apply Hfit.
    by apply elem_of_visible_posts in Hvis as [? _]. }
  split.
  - intros l p [_ ->]%index_shown_Some Hp. apply Hopen. by eapply subseteq_take.
  - intros l p ->%category_posts_shown [Hvis _]%elem_of_category_post_query.
    by apply Hopen.
Qed.

(** The theorem at work: post 2 is on the sample index and opens. *)
Lemma listed_posts_open_sample :
  shown_post (post_detail Sample.request 2 (Sample.env 10 5)
                (Sample.store [Sample.post 1 5 (Some 1) true;
                               Sample.post 2 7 (Some 1) true]))
  = Some (Sample.post 2 7 (Some 1) true).
Proof.
  refine (proj1 (listed_posts_open Sample.request Sample.request "news"
            (Sample.env 10 5)
            (Sample.store [Sample.post 1 5 (Some 1) true; Sample.post 2 7 (Some 1) true])
            _ _) [Sample.post 2 7 (Some 1) true; Sample.post 1 5 (Some 1) true]
            (Sample.post 2 7 (Some 1) true) _ _).
  - unfold unique_post_ids. simpl. apply (bool_decide_unpack _). by vm_compute.
  - unfold post_ids_fit. simpl. apply (bool_decide_unpack _). by vm_compute.
  - by vm_compute.
  - left.
Defined.

(** ** Category pages *)

Lemma Post_category_Some s p c :
  Post_category s p = Some c →
  c ∈ categories s ∧ Post.category p = Some (Category.id c).
Proof.
  unfold Post_category. destruct (Post.category p) as [k|]; simpl; [|done].
  intros [Hin <-]%category_by_pk_Some. done.
Qed.

Lemma category_page_descending s t v :
  pub_date_descending
    (QuerySet.evaluate s
       (QuerySet.filter (R := Post.t) [category__slug v]
          (PublishedPostsManager.published_at t))).
Proof.
  unfold pub_date_descending.
  eapply StronglySorted_impl; [|apply evaluate_StronglySorted].
  intros a b. apply Post_ordering_le.
Qed.

(** X9. When slugs are unique, a category page that answers shows a
    published category with the requested slug, and every post listed on it
    is a published post filed under exactly that category; the list is
    ordered by [pub_date] descending. *)
Theorem category_page_is_consistent request v e s c l :
  unique_slugs s →
  shown_category (category_posts request v e s) = Some c →
  shown_posts (category_posts request v e s) = Some l →
  c ∈ categories s
  ∧ Category.slug c = v
  ∧ Category.is_published c = true
  ∧ (∀ p, p ∈ l → p ∈ visible_posts s (clock e) ∧ Post_category s p = Some c)
  ∧ pub_date_descending l.
Proof.
  intros Huniq (Hc & Hslug & Hpub & _)%category_posts_shown_category
    ->%category_posts_shown.
  split_and!; try done; [|apply category_page_descending].
  intros p [Hvis Hpslug]%elem_of_category_post_query. split; [done|].
  destruct (Post_category s p) as [c'|] eqn:Hc'; [|done].
  injection Hpslug as Hpslug. f_equal.
  apply Post_category_Some in Hc' as [Hc'in _].
  apply (NoDup_fmap_eq Category.slug (categories s)); [exact Huniq | done | done | congruence].
Qed.

(** The theorem at work: the news page of the sample blog. *)
Lemma category_page_is_consistent_sample :
  Sample.news ∈ categories (Sample.store [Sample.post 1 5 (Some 1) true])
  ∧ Category.slug Sample.news = "news"
  ∧ Category.is_published Sample.news = true
  ∧ (∀ p, p ∈ [Sample.post 1 5 (Some 1) true] →
       p ∈ visible_posts (Sample.store [Sample.post 1 5 (Some 1) true]) 10
       ∧ Post_category (Sample.store [Sample.post 1 5 (Some 1) true]) p
         = Some Sample.news)
  ∧ pub_date_descending [Sample.post 1 5 (Some 1) true].
Proof.
  apply (category_page_is_consistent Sample.request "news" (Sample.env 10 5)
           (Sample.store [Sample.post 1 5 (Some 1) true])).
  - unfold unique_slugs. simpl. apply (bool_decide_unpack _). by vm_compute.
  - by vm_compute.
  - by vm_compute.
Defined.

(** X10. When slugs are unique, the category pages split the published
    posts: every published post is listed on the page of its category's
    slug, and on the page of no other slug. *)
Theorem category_pages_partition request e s :
  unique_slugs s →
  (∀ p, p ∈ visible_posts s (clock e) →
     ∃ c l, Post_category s p = Some c
            ∧ shown_posts (category_posts request (Category.slug c) e s) = Some l
            ∧ p ∈ l)
  ∧ (∀ v1 v2 l1 l2 p,
       shown_posts (category_posts request v1 e s) = Some l1 →
       shown_posts (category_posts request v2 e s) = Some l2 →
       p ∈ l1 → p ∈ l2 → v1 = v2).
Proof.
  intros Huniq. split.
  - intros p Hvis.
    apply elem_of_visible_posts in Hvis as Hparts.
    destruct Hparts as (Hp & Hflag & Hdate & k & c & Hk & Hc & Hpub).
    apply category_by_pk_Some in Hc as Hcin. destruct Hcin as [Hcin _].
    exists c. eexists. split_and!.
    + unfold Post_category. rewrite Hk. simpl. exact Hc.
    + rewrite category_posts_run by done. unfold shown_posts. simpl. reflexivity.
    + apply elem_of_category_page. split_and!; try done. by exists k, c.
  - intros v1 v2 l1 l2 p ->%category_posts_shown ->%category_posts_shown
      [_ H1]%elem_of_category_post_query [_ H2]%elem_of_category_post_query.
    congruence.
Qed.

(** The theorem at work: the one published post of the sample blog is on
    the news page. *)
Lemma category_pages_partition_sample :
  ∃ c l,
    Post_category (Sample.store [Sample.post 1 5 (Some 1) true])
      (Sample.post 1 5 (Some 1) true) = Some c
    ∧ shown_posts (category_posts Sample.request (Category.slug c) (Sample.env 10 5)
                     (Sample.store [Sample.post 1 5 (Some 1) true])) = Some l
    ∧ Sample.post 1 5 (Some 1) true ∈ l.
Proof.
  refine (proj1 (category_pages_partition Sample.request (Sample.env 10 5)
            (Sample.store [Sample.post 1 5 (Some 1) true]) _)
            (Sample.post 1 5 (Some 1) true) _).
  - unfold unique_slugs. simpl. apply (bool_decide_unpack _). by vm_compute.
  - vm_compute. left.
Defined.

(** ** Exceptions *)

Lemma post_detail_raised request k e s x :
  raised (post_detail request k e s) = Some x →
  (x = Http404 ∧ int64 k
   ∧ QuerySet.evaluate s
       (QuerySet.filter (R := Post.t) [id_exact k]
          (PublishedPostsManager.published_at (clock e))) = [])
  ∨ (x = MultipleObjectsReturned ∧ int64 k
     ∧ (2 ≤ length (QuerySet.evaluate s
                      (QuerySet.filter (R := Post.t) [id_exact k]
                         (PublishedPostsManager.published_at (clock e)))))%nat)
  ∨ (x = OverflowError ∧ ¬ int64 k).
Proof.
  destruct (decide (int64 k)) as [Hk|Hk].
  - rewrite post_detail_cases by done.
    destruct (QuerySet.evaluate s _) as [|p [|p' rows]]; unfold raised; simpl.
    + intros [= <-]. by left.
    + done.
    + intros [= <-]. right. left. split_and!; [done|done|lia].
  - rewrite post_detail_overflow by done. unfold raised. simpl.
    intros [= <-]. by right; right.
Qed.

Lemma category_posts_raised request v e s x :
  raised (category_posts request v e s) = Some x →
  (x = Http404
   ∧ QuerySet.evaluate s
       (QuerySet.filter (R := Category.t)
          [slug_exact v; category_is_published_exact true]
          (QuerySet.all QuerySet.Manager_get_queryset)) = [])
  ∨ (x = MultipleObjectsReturned
     ∧ (2 ≤ length (QuerySet.evaluate s
                      (QuerySet.filter (R := Category.t)
                         [slug_exact v; category_is_published_exact true]
                         (QuerySet.all QuerySet.Manager_get_queryset))))%nat).
Proof.
  rewrite category_posts_cases.
  destruct (QuerySet.evaluate s _) as [|c [|c' rows]]; unfold raised; simpl.
  - intros [= <-]. by left.
  - done.
  - intros [= <-]. right. split; [done|lia].
Qed.

(** X11. The ORM's [DoesNotExist] never leaves a view.  [post_detail] ends
    in a response, in Http404, in MultipleObjectsReturned (when the lookup
    matches several rows), or in OverflowError (exactly when the id is
    outside the signed 64-bit range); [category_posts] ends in a response,
    in Http404 or in MultipleObjectsReturned; neither ends in anything
    else. *)
Theorem views_translate_does_not_exist request post_id category_slug e s x :
  (raised (post_detail request post_id e s) = Some x →
   x = Http404 ∨ x = MultipleObjectsReturned
   ∨ (x = OverflowError ∧ ¬ int64 post_id))
  ∧ (¬ int64 post_id →
     raised (post_detail request post_id e s) = Some OverflowError)
  ∧ (raised (category_posts request category_slug e s) = Some x →
     x = Http404 ∨ x = MultipleObjectsReturned)
  ∧ raised (index request e s) ≠ Some DoesNotExist
  ∧ raised (post_detail request post_id e s) ≠ Some DoesNotExist
  ∧ raised (category_posts request category_slug e s) ≠ Some DoesNotExist.
Proof.
  split_and!.
  - intros [(-> & _)|[(-> & _)|[-> ?]]]%post_detail_raised; auto.
  - intros Hk. by rewrite post_detail_overflow.
  - intros [[-> _]|[-> _]]%category_posts_raised; auto.
  - by intros [? _]%index_raised.
  - intros [(? & _)|[(? & _)|[? _]]]%post_detail_raised; done.
  - intros [[? _]|[? _]]%category_posts_raised; done.
Qed.

(** X12. With an id within the signed 64-bit range, unique post ids, unique
    slugs and a non-negative page size, Http404 is the only exception a view
    raises: [index] raises nothing, [post_detail] and [category_posts]
    nothing but Http404. *)
Theorem unique_keys_leave_only_404 request post_id category_slug e s :
  int64 post_id →
  unique_post_ids s →
  unique_slugs s →
  0 ≤ Settings.POSTS_BY_PAGE (settings e) →
  raised (index request e s) = None
  ∧ (∀ x, raised (post_detail request post_id e s) = Some x → x = Http404)
  ∧ (∀ x, raised (category_posts request category_slug e s) = Some x → x = Http404).
Proof.
  intros Hfit Hids Hslugs Hpage. split_and!.
  - by rewrite index_run by done.
  - intros x [(-> & _)|[(_ & _ & Hlen)|[_ ?]]]%post_detail_raised; [done| |done].
    pose proof (evaluate_unique_key Post.id post_id s
                  (QuerySet.filter (R := Post.t) [id_exact post_id]
                     (PublishedPostsManager.published_at (clock e))) Hids) as Hle.
    assert (∀ r, QuerySet.selects s
                   (QuerySet.filter (R := Post.t) [id_exact post_id]
                      (PublishedPostsManager.published_at (clock e))) r →
                 Post.id r = post_id) as Hkey.
    { intros r [_ Hid]%selects_filter. by rewrite Forall_singleton in Hid. }
    specialize (Hle Hkey). lia.
  - intros x [[-> _]|[_ Hlen]]%category_posts_raised; [done|].
    pose proof (evaluate_unique_key Category.slug category_slug s
                  (QuerySet.filter (R := Category.t)
                     [slug_exact category_slug; category_is_published_exact true]
                     (QuerySet.all QuerySet.Manager_get_queryset)) Hslugs) as Hle.
    assert (∀ r, QuerySet.selects s
                   (QuerySet.filter (R := Category.t)
                      [slug_exact category_slug; category_is_published_exact true]
                      (QuerySet.all QuerySet.Manager_get_queryset)) r →
                 Category.slug r = category_slug) as Hkey.
    { by intros r [Hslug _]%category_query_selects. }
    specialize (Hle Hkey). lia.
Qed.

(** The theorem at work: the sample index raises nothing. *)
Lemma unique_keys_leave_only_404_sample :
  raised (index Sample.request (Sample.env 10 5)
            (Sample.store [Sample.post 1 5 (Some 1) true])) = None.
Proof.
  refine (proj1 (unique_keys_leave_only_404 Sample.request 1 "news" (Sample.env 10 5)
            (Sample.store [Sample.post 1 5 (Some 1) true]) _ _ _ _)).
  - unfold int64. lia.
  - unfold unique_post_ids. simpl. apply (bool_decide_unpack _). by vm_compute.
  - unfold unique_slugs. simpl. apply (bool_decide_unpack _). by vm_compute.
  - simpl. lia.
Defined.

(** ** Sorting commutes with a map that keeps the order *)
Section SortFmap.
Context {A B : Type} (f : A → B) (R1 : relation A) (R2 : relation B).
Context `{∀ x y, Decision (R1 x y)} `{∀ x y, Decision (R2 x y)}.
Hypothesis HR : ∀ x y, R1 x y ↔ R2 (f x) (f y).

Local Abbreviation stack_fmap st :=
  (fmap (M := list) (fmap (M := option) (fmap (M := list) f)) st).

Lemma list_merge_fmap l1 l2 :
  list_merge R2 (f <$> l1) (f <$> l2) = f <$> list_merge R1 l1 l2.
Proof.
  revert l2. induction l1 as [|x1 l1 IH1]; intros l2.
  - by rewrite fmap_nil, !list_merge_nil_l.
  - induction l2 as [|x2 l2 IH2].
    + by rewrite fmap_nil, !list_merge_nil_r.
    + rewrite !fmap_cons, !list_merge_cons.
      destruct (decide (R1 x1 x2)) as [Hle|Hle].
      * rewrite decide_True by by apply HR.
        rewrite fmap_cons. f_equal. by rewrite <-IH1.
      * rewrite decide_False by by rewrite <-HR.
        rewrite fmap_cons. f_equal. exact IH2.
Qed.

Lemma merge_list_to_stack_fmap (st : list (option (list A))) (l : list A) :
  merge_list_to_stack R2 (stack_fmap st) (f <$> l)
  = stack_fmap (merge_list_to_stack R1 st l).
Proof.
  revert l. induction st as [|[l'|] st IH]; intros l; try done.
  change (None :: merge_list_to_stack R2 (stack_fmap st) (list_merge R2 (f <$> l') (f <$> l))
          = None :: stack_fmap (merge_list_to_stack R1 st (list_merge R1 l' l))).
  by rewrite list_merge_fmap, IH.
Qed.

Lemma merge_stack_fmap (st : list (option (list A))) :
  merge_stack R2 (stack_fmap st) = f <$> merge_stack R1 st.
Proof.
  induction st as [|[l'|] st IH]; try done.
  change (list_merge R2 (f <$> l') (merge_stack R2 (stack_fmap st))
          = f <$> list_merge R1 l' (merge_stack R1 st)).
  by rewrite IH, list_merge_fmap.
Qed.

Lemma merge_sort_aux_fmap (st : list (option (list A))) (l : list A) :
  merge_sort_aux R2 (stack_fmap st) (f <$> l)
  = f <$> merge_sort_aux R1 st l.
Proof.
  revert st. induction l as [|x l IH]; intros st.
  - apply merge_stack_fmap.
  - change (merge_sort_aux R2 (merge_list_to_stack R2 (stack_fmap st) (f <$> [x])) (f <$> l)
            = f <$> merge_sort_aux R1 (merge_list_to_stack R1 st [x]) l).
    by rewrite merge_list_to_stack_fmap, IH.
Qed.

Lemma merge_sort_fmap (l : list A) : merge_sort R2 (f <$> l) = f <$> merge_sort R1 l.
Proof. exact (merge_sort_aux_fmap [] l). Qed.
End SortFmap.

Lemma filter_fmap {A B} (f : A → B) (P : B → Prop) `{∀ y, Decision (P y)}
    (l : list A) :
  base.filter P (f <$> l) = f <$> base.filter (λ x, P (f x)) l.
Proof.
  induction l as [|x l IH]; [done|].
  rewrite fmap_cons, !filter_cons. case_decide; [|done].
  by rewrite fmap_cons, IH.
Qed.

(** An ORDER BY on posts reads only [pub_date] and [created_at]. *)
Lemma Post_ordering_le_ext terms (a a' b b' : Post.t) :
  Post.pub_date a = Post.pub_date a' → Post.created_at a = Post.created_at a' →
  Post.pub_date b = Post.pub_date b' → Post.created_at b = Post.created_at b' →
  ordering_le terms a b ↔ ordering_le terms a' b'.
Proof.
  intros Ha1 Ha2 Hb1 Hb2. unfold ordering_le.
  assert (∀ t (x x' : Post.t),
            Post.pub_date x = Post.pub_date x' →
            Post.created_at x = Post.created_at x' →
            order_term_key t x = order_term_key t x') as Hkey.
  { intros t x x' H1 H2. unfold order_term_key.
    destruct t as [|c f0]; [done|].
    assert (∀ g, match sort_key (R := Post.t) g with
                 | Some k => k x | None => 0 end
                 = match sort_key (R := Post.t) g with
                   | Some k => k x' | None => 0 end) as Hcol.
    { intros g. simpl. repeat case_decide; congruence. }
    assert (∀ g, match sort_key (R := Post.t) g with
                 | Some k => - k x | None => 0 end
                 = match sort_key (R := Post.t) g with
                   | Some k => - k x' | None => 0 end) as Hneg.
    { intros g. simpl. repeat case_decide; congruence. }
    destruct c as [[] [] [] [] [] [] [] []]; first [apply Hcol | apply Hneg]. }
  assert (ordering_compare terms a b = ordering_compare terms a' b') as ->; [|done].
  induction terms as [|t ts IH]; simpl; [done|].
  by rewrite !order_term_compare_key, (Hkey t a a'), (Hkey t b b'), IH.
Qed.

(** ** Deleting a location *)

Lemma Location_delete_posts k s :
  posts (Location_delete k s) = clear_location k <$> posts s.
Proof. done. Qed.

Lemma clear_location_matches k s l p :
  Post_matches (Location_delete k s) l (clear_location k p) ↔ Post_matches s l p.
Proof.
  unfold clear_location. case_decide; [|done]. by destruct l.
Qed.

Lemma clear_location_selects k s (q : QuerySet.t Post.t) p :
  QuerySet.selects (Location_delete k s) q (clear_location k p)
  ↔ QuerySet.selects s q p.
Proof.
  unfold QuerySet.selects. rewrite !Forall_forall.
  split; intros Hall l Hl; apply (clear_location_matches k s l p), Hall, Hl.
Qed.

Lemma Location_delete_evaluate k s (q : QuerySet.t Post.t) :
  QuerySet.evaluate (Location_delete k s) q = clear_location k <$> QuerySet.evaluate s q.
Proof.
  unfold QuerySet.evaluate.
  change (table (Location_delete k s)) with (clear_location k <$> posts s).
  rewrite filter_fmap.
  rewrite (list_filter_iff _ (QuerySet.selects s q))
    by (intros p; apply clear_location_selects).
  apply merge_sort_fmap. intros a b.
  apply Post_ordering_le_ext; unfold clear_location; by case_decide.
Qed.

(** X13. Deleting a location (a SET_NULL reference) leaves every page as it
    was, but for the emptied reference: no post refers to the deleted
    location any more, and the index, each category page and each post page
    show the same posts in the same order, each with its location emptied if
    it was the deleted one; a page that raised Http404 still does. *)
Theorem location_delete_keeps_pages request post_id category_slug k e s :
  (∀ p, p ∈ posts (Location_delete k s) → Post.location p ≠ Some k)
  ∧ categories (Location_delete k s) = categories s
  ∧ shown_posts (index request e (Location_delete k s))
    = fmap (M := list) (clear_location k) <$> shown_posts (index request e s)
  ∧ shown_posts (category_posts request category_slug e (Location_delete k s))
    = fmap (M := list) (clear_location k)
        <$> shown_posts (category_posts request category_slug e s)
  ∧ shown_category (category_posts request category_slug e (Location_delete k s))
    = shown_category (category_posts request category_slug e s)
  ∧ shown_post (post_detail request post_id e (Location_delete k s))
    = clear_location k <$> shown_post (post_detail request post_id e s)
  ∧ raised (index request e (Location_delete k s)) = raised (index request e s)
  ∧ raised (post_detail request post_id e (Location_delete k s))
    = raised (post_detail request post_id e s)
  ∧ raised (category_posts request category_slug e (Location_delete k s))
    = raised (category_posts request category_slug e s).
Proof.
  assert (∀ qc : QuerySet.t Category.t,
            QuerySet.evaluate (Location_delete k s) qc = QuerySet.evaluate s qc)
    as Hcats by done.
  split_and!.
  - intros p. rewrite Location_delete_posts.
    intros (q & -> & _)%list_elem_of_fmap. unfold clear_location.
    by case_decide.
  - done.
  - rewrite !index_shown. case_decide; [done|]. simpl. f_equal.
    unfold visible_posts. by rewrite Location_delete_evaluate, fmap_take.
  - rewrite !category_posts_cases, Hcats.
    destruct (QuerySet.evaluate s _) as [|c [|c' rows]]; try done.
    unfold shown_posts. simpl. by rewrite Location_delete_evaluate.
  - rewrite !category_posts_cases, Hcats.
    by destruct (QuerySet.evaluate s _) as [|c [|c' rows]].
  - destruct (decide (int64 post_id)) as [Hfit|Hfit];
      [|by rewrite !post_detail_overflow].
    rewrite !post_detail_cases, Location_delete_evaluate by done.
    by destruct (QuerySet.evaluate s _) as [|p [|p' rows]].
  - destruct (decide (Settings.POSTS_BY_PAGE (settings e) < 0)).
    + by rewrite !index_negative_page.
    + by rewrite !index_run by lia.
  - destruct (decide (int64 post_id)) as [Hfit|Hfit];
      [|by rewrite !post_detail_overflow].
    rewrite !post_detail_cases, Location_delete_evaluate by done.
    by destruct (QuerySet.evaluate s _) as [|p [|p' rows]].
  - rewrite !category_posts_cases, Hcats.
    by destruct (QuerySet.evaluate s _) as [|c [|c' rows]].
Qed.

(** ** Deleting a category *)

Lemma Category_delete_posts k s :
  posts (Category_delete k s) = clear_category k <$> posts s.
Proof. done. Qed.

Lemma category_by_pk_delete k k' s :
  k' ≠ k → category_by_pk (Category_delete k s) k' = category_by_pk s k'.
Proof.
  intros Hne. unfold category_by_pk. simpl.
  induction (categories s) as [|c cs IH]; [done|].
  rewrite filter_cons. simpl. case_decide as Hc; simpl.
  - by rewrite IH.
  - rewrite IH. rewrite bool_decide_eq_false_2; [done|].
    intros Heq. congruence.
Qed.

Lemma clear_category_published k s p :
  published_category (Category_delete k s) (clear_category k p)
  ↔ published_category s p ∧ Post.category p ≠ Some k.
Proof.
  unfold published_category, clear_category. case_decide as Hk.
  - simpl. split.
    + by intros (k' & c & ? & _).
    + by intros [_ ?].
  - split.
    + intros (k' & c & Hk' & Hc & Hpub). split; [|done].
      exists k', c. split_and!; try done.
      rewrite <-Hc. symmetry. apply category_by_pk_delete. congruence.
    + intros [(k' & c & Hk' & Hc & Hpub) _].
      exists k', c. split_and!; try done.
      rewrite <-Hc. apply category_by_pk_delete. congruence.
Qed.

Lemma fmap_fixed {A} (f : A → A) (l : list A) :
  (∀ x, x ∈ l → f x = x) → f <$> l = l.
Proof.
  intros Hfix. rewrite <-(list_fmap_id l) at 2.
  apply list_fmap_ext. intros i x Hx. apply Hfix.
  by apply (list_elem_of_lookup_2 _ i).
Qed.

Lemma Category_delete_visible k s t :
  visible_posts (Category_delete k s) t
  ≡ₚ base.filter (λ p, Post.category p ≠ Some k) (visible_posts s t).
Proof.
  unfold visible_posts. rewrite !evaluate_Permutation.
  change (table (Category_delete k s)) with (clear_category k <$> posts s).
  change (table s) with (posts s).
  rewrite filter_fmap, list_filter_filter.
  rewrite (list_filter_iff _
             (λ p, Post.category p ≠ Some k
                   ∧ QuerySet.selects s (PublishedPostsManager.published_at t) p)).
  2:{ intros p. rewrite !published_at_selects, clear_category_published.
      unfold clear_category, Post.is_published. case_decide; simpl; tauto. }
  rewrite fmap_fixed; [done|].
  intros p [[Hk _] _]%list_elem_of_filter. unfold clear_category.
  by rewrite decide_False.
Qed.

(** X14. Deleting a category (a SET_NULL reference) deletes no post but takes
    the category's posts off the site: the posts table keeps its ids, no
    post refers to the deleted category any more, and the published posts
    afterwards are the published posts from before that were not filed
    under it, each as often as before. *)
Theorem category_delete_hides_its_posts k s t :
  (∀ c, c ∈ categories (Category_delete k s) ↔ c ∈ categories s ∧ Category.id c ≠ k)
  ∧ Post.id <$> posts (Category_delete k s) = Post.id <$> posts s
  ∧ (∀ p, p ∈ posts (Category_delete k s) → Post.category p ≠ Some k)
  ∧ visible_posts (Category_delete k s) t
    ≡ₚ base.filter (λ p, Post.category p ≠ Some k) (visible_posts s t).
Proof.
  split_and!.
  - intros c. simpl. rewrite list_elem_of_filter. tauto.
  - rewrite Category_delete_posts, <-list_fmap_compose.
    apply list_fmap_ext. intros i p _. simpl. unfold clear_category.
    by case_decide.
  - intros p. rewrite Category_delete_posts.
    intros (q & -> & _)%list_elem_of_fmap. unfold clear_category.
    by case_decide.
  - apply Category_delete_visible.
Qed.

(** X15. After a category is deleted, a post that was filed under it is
    gone from every page: with unique post ids that fit the id column its
    post page answers Http404 and the index does not list it, and with
    unique slugs the page of the deleted category answers Http404. *)
Theorem category_delete_closes_pages request k c q e s :
  unique_post_ids s →
  post_ids_fit s →
  unique_slugs s →
  category_by_pk s k = Some c →
  q ∈ posts s →
  Post.category q = Some k →
  post_detail request (Post.id q) e (Category_delete k s)
  = (Category_delete k s, inl Http404)
  ∧ (∀ l p, shown_posts (index request e (Category_delete k s)) = Some l →
            p ∈ l → Post.id p ≠ Post.id q)
  ∧ category_posts request (Category.slug c) e (Category_delete k s)
    = (Category_delete k s, inl Http404).
Proof.
  intros Hids Hfit Hslugs Hc Hq Hqk.
  assert (int64 (Post.id q)) as Hqfit.
  { unfold post_ids_fit in Hfit. rewrite Forall_forall in Hfit. by apply Hfit. }
  assert (∀ p, p ∈ visible_posts (Category_delete k s) (clock e) →
               Post.id p ≠ Post.id q) as Hgone.
  { intros p Hp Hid. rewrite Category_delete_visible in Hp.
    apply list_elem_of_filter in Hp as [Hpk Hp].
    apply elem_of_visible_posts in Hp as [Hp _].
    assert (p = q) as -> by by apply (NoDup_fmap_eq Post.id (posts s)).
    done. }
  split_and!.
  - by apply post_detail_not_found.
  - intros l p [_ ->]%index_shown_Some Hp. apply Hgone. by eapply subseteq_take.
  - rewrite category_posts_cases.
    destruct (QuerySet.evaluate _ _) as [|c' rows] eqn:E; [done|].
    assert (c' ∈ categories (Category_delete k s)
            ∧ Category.slug c' = Category.slug c
            ∧ Category.is_published c' = true) as (Hc' & Hslug & _).
    { apply elem_of_category_query. rewrite E. left. }
    simpl in Hc'. apply list_elem_of_filter in Hc' as [Hne Hc'].
    apply category_by_pk_Some in Hc as [Hcin Hck].
    assert (c' = c) as -> by by apply (NoDup_fmap_eq Category.slug (categories s)).
    done.
Qed.

(** The theorem at work: the news category of the sample blog is deleted. *)
Lemma category_delete_closes_pages_sample :
  post_detail Sample.request 1 (Sample.env 10 5)
    (Category_delete 1 (Sample.store [Sample.post 1 5 (Some 1) true]))
  = (Category_delete 1 (Sample.store [Sample.post 1 5 (Some 1) true]), inl Http404).
Proof.
  refine (proj1 (category_delete_closes_pages Sample.request 1 Sample.news
            (Sample.post 1 5 (Some 1) true) (Sample.env 10 5)
            (Sample.store [Sample.post 1 5 (Some 1) true]) _ _ _ _ _ _)).
  - unfold unique_post_ids. simpl. apply (bool_decide_unpack _). by vm_compute.
  - unfold post_ids_fit. simpl. apply (bool_decide_unpack _). by vm_compute.
  - unfold unique_slugs. simpl. apply (bool_decide_unpack _). by vm_compute.
  - reflexivity.
  - simpl. left.
  - reflexivity.
Defined.

(** ** Deleting a user *)

Lemma User_delete_visible k s t :
  visible_posts (User_delete k s) t
  ≡ₚ base.filter (λ p, Post.author p ≠ k) (visible_posts s t).
Proof.
  unfold visible_posts. rewrite !evaluate_Permutation.
  change (table (User_delete k s))
    with (base.filter (λ p, Some (Post.author p) ≠ Some k) (posts s)).
  change (table s) with (posts s).
  rewrite !list_filter_filter.
  rewrite (list_filter_iff _
             (λ p, Post.author p ≠ k
                   ∧ QuerySet.selects s (PublishedPostsManager.published_at t) p));
    [done|].
  intros p. rewrite !published_at_selects.
  assert (published_category (User_delete k s) p ↔ published_category s p) as -> by done.
  split; intros [? ?]; split; try done; congruence.
Qed.

(** X16. Deleting a user (a CASCADE reference) deletes the user's posts and
    nothing else: the posts that remain are those of other authors,
    categories and locations are untouched, the published posts afterwards
    are the published posts of other authors from before, and the index
    lists no post of the deleted user. *)
Theorem user_delete_cascades request k e s :
  (∀ p, p ∈ posts (User_delete k s) ↔ p ∈ posts s ∧ Post.author p ≠ k)
  ∧ categories (User_delete k s) = categories s
  ∧ locations (User_delete k s) = locations s
  ∧ visible_posts (User_delete k s) (clock e)
    ≡ₚ base.filter (λ p, Post.author p ≠ k) (visible_posts s (clock e))
  ∧ (∀ l p, shown_posts (index request e (User_delete k s)) = Some l → p ∈ l →
            Post.author p ≠ k ∧ p ∈ visible_posts s (clock e)).
Proof.
  split_and!; try done.
  - intros p.
    change (posts (User_delete k s))
      with (base.filter (λ p, Some (Post.author p) ≠ Some k) (posts s)).
    rewrite list_elem_of_filter.
    split; intros [? ?]; split; try done; congruence.
  - apply User_delete_visible.
  - intros l p [_ ->]%index_shown_Some Hp.
    apply subseteq_take in Hp. rewrite User_delete_visible in Hp.
    by apply list_elem_of_filter in Hp.
Qed.

(** ** What the views read from the settings *)

(** X17. Of the settings only [POSTS_BY_PAGE] matters to the views, and only
    to [index]: at the same clock reading and on the same store,
    [post_detail] and [category_posts] give the same outcome under any
    settings (a category page is never cut to a page size), and [index]
    gives the same outcome under settings with the same [POSTS_BY_PAGE]. *)
Theorem views_read_only_the_page_size request post_id category_slug e1 e2 s :
  clock e1 = clock e2 →
  post_detail request post_id e1 s = post_detail request post_id e2 s
  ∧ category_posts request category_slug e1 s
    = category_posts request category_slug e2 s
  ∧ (Settings.POSTS_BY_PAGE (settings e1) = Settings.POSTS_BY_PAGE (settings e2) →
     index request e1 s = index request e2 s).
Proof.
  intros Hclock. split_and!.
  - destruct (decide (int64 post_id)) as [Hfit|Hfit].
    + by rewrite !post_detail_cases, Hclock by done.
    + by rewrite !post_detail_overflow.
  - by rewrite !category_posts_cases, Hclock.
  - intros Hpage.
    destruct (decide (Settings.POSTS_BY_PAGE (settings e1) < 0)).
    + rewrite !index_negative_page; [done | lia | done].
    + rewrite !index_run by lia. by rewrite Hclock, Hpage.
Qed.

(** The theorem at work: the news page under page sizes 1 and 5. *)
Lemma views_read_only_the_page_size_sample :
  category_posts Sample.request "news" (Sample.env 10 1)
    (Sample.store [Sample.post 1 5 (Some 1) true; Sample.post 2 7 (Some 1) true])
  = category_posts Sample.request "news" (Sample.env 10 5)
      (Sample.store [Sample.post 1 5 (Some 1) true; Sample.post 2 7 (Some 1) true]).
Proof.
  refine (proj1 (proj2 (views_read_only_the_page_size Sample.request 1 "news"
            (Sample.env 10 1) (Sample.env 10 5) _ _))).
  reflexivity.
Defined.
